(** * parse-srcset: a shallow embedding of [src/index.js]

    The JavaScript function [parseSrcset] is embedded as Rocq functions over
    - strings as lists of UTF-16 code units ([list N]),
    - numbers as IEEE 754 binary64 values ([spec_float], precision 53,
      maximal exponent 1024),
    - the closure variables of [parseSrcset] as one record threaded through
      [collectCharacters], [tokenize] and [parseDescriptors],
    - [throw] as a result in a sum type. *)

From Stdlib Require Import String Ascii.
From Stdlib Require Import List Bool Arith NArith ZArith Lia.
From Stdlib Require Import Floats.SpecFloat.
Import ListNotations.

Set Implicit Arguments.

(** ** Strings *)

Module Js.

(** A UTF-16 code unit. *)
Definition char := N.

(** A JavaScript string: its sequence of code units. *)
Abbreviation jsstring := (list char).

Definition code (a : ascii) : char := N_of_ascii a.

(** The string a literal of ASCII characters denotes. *)
Definition str (s : string) : jsstring := map code (list_ascii_of_string s).

Definition char_eqb (a b : char) : bool := N.eqb a b.

(** [s.substring(n)] for an integer [n]: a negative start counts as 0 and a
    start past the end gives the empty string. *)
Definition substring_from (s : jsstring) (n : Z) : jsstring :=
  skipn (Z.to_nat n) s.

(** [s.substring(a, b)] for integers [a <= b]. *)
Definition substring (s : jsstring) (a b : Z) : jsstring :=
  firstn (Z.to_nat b - Z.to_nat a) (skipn (Z.to_nat a) s).

(** [s.charAt(n)]: [None] stands for the empty string, returned when [n] is
    not an index of [s]. *)
Definition charAt (s : jsstring) (n : Z) : option char :=
  if (n <? 0)%Z then None else nth_error s (Z.to_nat n).

(** [s[s.length - 1]]: [None] stands for [undefined]. *)
Definition lastCharOf (s : jsstring) : option char :=
  match s with
  | [] => None
  | _ => nth_error s (length s - 1)
  end.

Definition jslength (s : jsstring) : Z := Z.of_nat (length s).

(** The longest prefix of [s] whose code units all satisfy [p]. *)
Fixpoint takeWhile (p : char -> bool) (s : jsstring) : jsstring :=
  match s with
  | [] => []
  | c :: r => if p c then c :: takeWhile p r else []
  end.

Fixpoint dropWhile (p : char -> bool) (s : jsstring) : jsstring :=
  match s with
  | [] => []
  | c :: r => if p c then dropWhile p r else s
  end.

Fixpoint isPrefixOf (p s : jsstring) : bool :=
  match p, s with
  | [], _ => true
  | a :: p', b :: s' => char_eqb a b && isPrefixOf p' s'
  | _ :: _, [] => false
  end.

End Js.

Import Js.

(** ** Regular expressions

    The anchored patterns ([/^...$/] used with [test]) are matched with
    Brzozowski derivatives; a pattern [/^[class]+/] used with [exec] returns
    the longest non-empty prefix in the class. *)

Module Regex.

Inductive regex : Type :=
| Void : regex
| Eps : regex
| Cls : (char -> bool) -> regex
| Alt : regex -> regex -> regex
| Seq : regex -> regex -> regex
| Star : regex -> regex.

Definition Plus (r : regex) : regex := Seq r (Star r).
Definition Opt (r : regex) : regex := Alt r Eps.
Definition Chr (a : ascii) : regex := Cls (char_eqb (code a)).

Fixpoint nullable (r : regex) : bool :=
  match r with
  | Void => false
  | Eps => true
  | Cls _ => false
  | Alt a b => nullable a || nullable b
  | Seq a b => nullable a && nullable b
  | Star _ => true
  end.

Fixpoint deriv (c : char) (r : regex) : regex :=
  match r with
  | Void => Void
  | Eps => Void
  | Cls p => if p c then Eps else Void
  | Alt a b => Alt (deriv c a) (deriv c b)
  | Seq a b =>
      if nullable a then Alt (Seq (deriv c a) b) (deriv c b)
      else Seq (deriv c a) b
  | Star a => Seq (deriv c a) (Star a)
  end.

(** [/^r$/.test(s)] *)
Fixpoint test (r : regex) (s : jsstring) : bool :=
  match s with
  | [] => nullable r
  | c :: s' => test (deriv c r) s'
  end.

End Regex.

Import Regex.

(** ** Character classes and the patterns of the module *)

Definition isASCIIWhitespace (character : char) : bool :=
  (* Horizontal tab *)
  char_eqb character 9%N
  (* New line *)
  || char_eqb character 10%N
  (* Form feed *)
  || char_eqb character 12%N
  (* Carriage return *)
  || char_eqb character 13%N
  (* Space *)
  || char_eqb character 32%N.

(** The class [[ \t\n\r\u000c]]. *)
Definition classSpace (c : char) : bool :=
  char_eqb c 32%N || char_eqb c 9%N || char_eqb c 10%N || char_eqb c 13%N
  || char_eqb c 12%N.

(** The class [[, \t\n\r\u000c]]. *)
Definition classCommaOrSpace (c : char) : bool :=
  char_eqb c (code ",") || classSpace c.

(** The class [[^ \t\n\r\u000c]]. *)
Definition classNotSpace (c : char) : bool := negb (classSpace c).

(** The class [[0-9]], which is also [\d]. *)
Definition classDigit (c : char) : bool := (48 <=? c)%N && (c <=? 57)%N.

Definition classE (c : char) : bool :=
  char_eqb c (code "e") || char_eqb c (code "E").

Definition classSign (c : char) : bool :=
  char_eqb c (code "+") || char_eqb c (code "-").

(** The three patterns used with [collectCharacters] are given by their
    class: each is [/^[class]+/]. *)
Definition regexLeadingSpaces : char -> bool := classSpace.
Definition regexLeadingCommasOrSpaces : char -> bool := classCommaOrSpace.
Definition regexLeadingNotSpaces : char -> bool := classNotSpace.

(** [url.replace(/[,]+$/, "")]: the match is the run of commas that ends the
    string, when there is one. *)
Definition replaceTrailingCommas (s : jsstring) : jsstring :=
  rev (dropWhile (char_eqb (code ",")) (rev s)).

(** [/^\d+$/] *)
Definition regexNonNegativeInteger : regex := Plus (Cls classDigit).

(** [/^-?(?:[0-9]+|[0-9]*\.[0-9]+)(?:[eE][+-]?[0-9]+)?$/] *)
Definition regexFloatingPoint : regex :=
  Seq (Opt (Chr "-"))
    (Seq (Alt (Plus (Cls classDigit))
              (Seq (Star (Cls classDigit))
                   (Seq (Chr ".") (Plus (Cls classDigit)))))
         (Opt (Seq (Cls classE)
                   (Seq (Opt (Cls classSign)) (Plus (Cls classDigit)))))).

(** ** Numbers

    A JavaScript Number is an IEEE 754 binary64 value. [parseInt] and
    [parseFloat] are the built-in functions: they read the longest prefix
    of the trimmed string that is a literal and round its value to the
    nearest Number, ties to even. (For a literal of more than 20 significant
    digits ECMAScript allows an implementation to round the digits after the
    20th first; the engines round the exact value, as is done here.) *)

Module Number.

Definition Number := spec_float.

Definition prec : Z := 53.
Definition emax : Z := 1024.

Definition NaN : Number := S754_nan.
Definition zero : Number := S754_zero false.

(** The Number value for the real [(-1)^neg * m * 10^e] ([m >= 0]): rounding
    to nearest, ties to even, with overflow to an infinity and underflow to a
    zero that keeps the sign. *)
Definition ofDecimal (neg : bool) (m e : Z) : Number :=
  match m with
  | Zpos p =>
      match e with
      | Zneg k =>
          let '(mz, ez, lz) :=
            SFdiv_core_binary prec emax (Zpos p) 0 (Z.pow_pos 10 k) 0 in
          binary_round_aux prec emax neg mz ez lz
      | _ => binary_round prec emax neg (Z.to_pos (Zpos p * 10 ^ e)) 0
      end
  | _ => S754_zero neg
  end.

(** [ToBoolean] on a Number: [+0], [-0] and [NaN] are falsy. *)
Definition truthy (x : Number) : bool :=
  match x with
  | S754_zero _ | S754_nan => false
  | _ => true
  end.

(** [x || ...] on a variable that is [undefined] or holds a Number. *)
Definition truthyOpt (x : option Number) : bool :=
  match x with
  | Some v => truthy v
  | None => false
  end.

(** [x < y] *)
Definition lt (x y : Number) : bool := SFltb x y.

(** [x === y] on Numbers *)
Definition strictEq (x y : Number) : bool := SFeqb x y.

(** The value of a string of decimal digits. *)
Definition digitValue (c : char) : Z := Z.of_N c - 48.

Definition digitsValue (ds : jsstring) : Z :=
  fold_left (fun acc c => 10 * acc + digitValue c)%Z ds 0%Z.

(** [StrWhiteSpaceChar]: the code units [TrimString] removes. *)
Definition isStrWhiteSpaceChar (c : char) : bool :=
  existsb (N.eqb c)
    [9; 10; 11; 12; 13; 32; 160; 5760; 8232; 8233; 8239; 8287; 12288; 65279]%N
  || ((8192 <=? c)%N && (c <=? 8202)%N).

Definition trimStart (s : jsstring) : jsstring := dropWhile isStrWhiteSpaceChar s.

(** An optional sign: whether it is a minus, and the rest. *)
Definition takeSign (s : jsstring) : bool * jsstring :=
  match s with
  | c :: r =>
      if char_eqb c (code "-") then (true, r)
      else if char_eqb c (code "+") then (false, r)
      else (false, s)
  | [] => (false, s)
  end.

(** [parseInt(string, 10)] *)
Definition parseInt (string : jsstring) : Number :=
  let '(neg, trimmed) := takeSign (trimStart string) in
  match takeWhile classDigit trimmed with
  | [] => NaN
  | digits => ofDecimal neg (digitsValue digits) 0
  end.

(** The exponent part that follows the digits of a decimal literal, when it
    is complete ([[eE][+-]?[0-9]+]); otherwise no exponent is read. *)
Definition exponentOf (s : jsstring) : Z :=
  match s with
  | c :: r =>
      if classE c then
        let '(neg, r') := takeSign r in
        match takeWhile classDigit r' with
        | [] => 0
        | ds => if neg then - digitsValue ds else digitsValue ds
        end
      else 0
  | [] => 0
  end%Z.

(** [parseFloat(string)]: the value of the longest prefix of the trimmed
    string that is a [StrDecimalLiteral]. *)
Definition parseFloat (string : jsstring) : Number :=
  let '(neg, s) := takeSign (trimStart string) in
  if isPrefixOf (str "Infinity") s then S754_infinity neg
  else
    let ip := takeWhile classDigit s in
    let r1 := dropWhile classDigit s in
    let '(fp, r2) :=
      match r1 with
      | c :: r =>
          if char_eqb c (code ".")
          then (takeWhile classDigit r, dropWhile classDigit r)
          else ([], r1)
      | [] => ([], r1)
      end in
    match ip ++ fp with
    | [] => NaN
    | ds => ofDecimal neg (digitsValue ds) (exponentOf r2 - jslength fp)
    end.

End Number.

Import Number.

(** ** Candidates, errors and the closure variables *)

Record Source := { value : jsstring; startOffset : Z }.

(** A candidate object: a property that was not assigned is [None]. *)
Record Candidate := {
  source : Source;
  width : option Number;
  density : option Number;
  height : option Number
}.

(** What a [throw] carries: [new Error(message)], or the [TypeError] of
    reading a property of [undefined]. *)
Inductive Thrown :=
| Error (message : jsstring)
| TypeError.

(** How a call ends. *)
Inductive Completion :=
| Return (candidates : list Candidate)
| Throw (e : Thrown).

Definition quote : jsstring := [34%N].

Definition messageNoCandidates : jsstring :=
  str "Must contain one or more image candidate strings.".

(** The template literal of [parseDescriptors]; an [undefined] descriptor
    prints as the word. *)
Definition messageInvalidDescriptor (input : jsstring) (desc : option jsstring)
  : jsstring :=
  str "Invalid srcset descriptor found in " ++ quote ++ input ++ quote
  ++ str " at " ++ quote
  ++ match desc with Some d => d | None => str "undefined" end
  ++ quote ++ str ".".

Inductive State := InDescriptor | InParens | AfterDescriptor.

(** The variables of [parseSrcset] its inner functions share. *)
Module Vars.

Record t := mk {
  url : jsstring;
  descriptors : list jsstring;
  currentDescriptor : jsstring;
  state : State;
  position : Z;
  startOffset : Z;
  candidates : list Candidate
}.

Definition set_url (x : jsstring) (v : t) : t :=
  mk x (descriptors v) (currentDescriptor v) (state v) (position v)
     (startOffset v) (candidates v).
Definition set_descriptors (x : list jsstring) (v : t) : t :=
  mk (url v) x (currentDescriptor v) (state v) (position v)
     (startOffset v) (candidates v).
Definition set_currentDescriptor (x : jsstring) (v : t) : t :=
  mk (url v) (descriptors v) x (state v) (position v)
     (startOffset v) (candidates v).
Definition set_state (x : State) (v : t) : t :=
  mk (url v) (descriptors v) (currentDescriptor v) x (position v)
     (startOffset v) (candidates v).
Definition set_position (x : Z) (v : t) : t :=
  mk (url v) (descriptors v) (currentDescriptor v) (state v) x
     (startOffset v) (candidates v).
Definition set_startOffset (x : Z) (v : t) : t :=
  mk (url v) (descriptors v) (currentDescriptor v) (state v) (position v)
     x (candidates v).
Definition set_candidates (x : list Candidate) (v : t) : t :=
  mk (url v) (descriptors v) (currentDescriptor v) (state v) (position v)
     (startOffset v) x.

(** The variables when the splitting loop is entered: [position] is 0 and
    [candidates] is empty; the others are declared without a value and are
    assigned before they are read. *)
Definition initial : t := mk [] [] [] InDescriptor 0 0 [].

End Vars.

(** ** collectCharacters *)

Definition collectCharacters (regEx : char -> bool) (input : jsstring)
  (v : Vars.t) : option jsstring * Vars.t :=
  match takeWhile regEx (substring_from input (Vars.position v)) with
  | [] => (None, v)
  | chars =>
      (Some chars, Vars.set_position (Vars.position v + jslength chars) v)
  end.

(** ** parseDescriptors *)

(** The local variables of [parseDescriptors] that the loop over the
    descriptors updates. *)
Record DescriptorVars := {
  pError : bool;
  w : option Number;
  d : option Number;
  h : option Number;
  desc : option jsstring
}.

Definition optCharIs (c : option char) (a : ascii) : bool :=
  match c with
  | Some x => char_eqb x (code a)
  | None => false
  end.

Definition set_pError (x : bool) (l : DescriptorVars) : DescriptorVars :=
  Build_DescriptorVars x (w l) (d l) (h l) (desc l).
Definition set_w (x : Number) (l : DescriptorVars) : DescriptorVars :=
  Build_DescriptorVars (pError l) (Some x) (d l) (h l) (desc l).
Definition set_d (x : Number) (l : DescriptorVars) : DescriptorVars :=
  Build_DescriptorVars (pError l) (w l) (Some x) (h l) (desc l).
Definition set_h (x : Number) (l : DescriptorVars) : DescriptorVars :=
  Build_DescriptorVars (pError l) (w l) (d l) (Some x) (desc l).
Definition set_desc (x : jsstring) (l : DescriptorVars) : DescriptorVars :=
  Build_DescriptorVars (pError l) (w l) (d l) (h l) (Some x).

(** The body of the [for] loop, at the descriptor [descriptors[i]]. *)
Definition descriptorStep (l0 : DescriptorVars) (desc_i : jsstring)
  : DescriptorVars :=
  let l := set_desc desc_i l0 in
  let lastChar := lastCharOf desc_i in
  let value := substring desc_i 0 (jslength desc_i - 1) in
  let intVal := parseInt value in
  let floatVal := parseFloat value in
  if Regex.test regexNonNegativeInteger value && optCharIs lastChar "w" then
    let l := if truthyOpt (w l) || truthyOpt (d l) then set_pError true l else l in
    if strictEq intVal zero then set_pError true l else set_w intVal l
  else if Regex.test regexFloatingPoint value && optCharIs lastChar "x" then
    let l :=
      if truthyOpt (w l) || truthyOpt (d l) || truthyOpt (h l)
      then set_pError true l else l in
    if lt floatVal zero then set_pError true l else set_d floatVal l
  else if Regex.test regexNonNegativeInteger value && optCharIs lastChar "h" then
    let l := if truthyOpt (h l) || truthyOpt (d l) then set_pError true l else l in
    if strictEq intVal zero then set_pError true l else set_h intVal l
  else set_pError true l.

(** The loop over [descriptors], from the initial values of the locals. *)
Definition validateDescriptors (descriptors : list jsstring) : DescriptorVars :=
  fold_left descriptorStep descriptors
    (Build_DescriptorVars false None None None None).

(** [if (x) candidate.field = { value: x }] *)
Definition fieldOf (x : option Number) : option Number :=
  if truthyOpt x then x else None.

(** [parseDescriptors()]: the variables after the call, or what it throws.
    Both callers have assigned [url] and [startOffset]. *)
Definition parseDescriptors (input : jsstring) (v : Vars.t)
  : Vars.t + Thrown :=
  let l := validateDescriptors (Vars.descriptors v) in
  if negb (pError l) then
    let candidate :=
      {| source := {| value := Vars.url v; startOffset := Vars.startOffset v |};
         width := fieldOf (w l);
         density := fieldOf (d l);
         height := fieldOf (h l) |} in
    inl (Vars.set_candidates (Vars.candidates v ++ [candidate]) v)
  else inr (Error (messageInvalidDescriptor input (desc l))).

(** ** tokenize *)

(** How one turn of the tokenizer's loop ends: at the bottom of the loop
    body, or in a jump to the descriptor parser followed by [return]. *)
Inductive Turn :=
| Continue (v : Vars.t)
| DescriptorParser (v : Vars.t).

Definition optCharTest (p : char -> bool) (c : option char) : bool :=
  match c with
  | Some x => p x
  | None => false
  end.

(** [c === ""]: [position] is past the end of [input]. *)
Definition isEOF (c : option char) : bool :=
  match c with
  | Some _ => false
  | None => true
  end.

(** [currentDescriptor += c] *)
Definition appendChar (s : jsstring) (c : option char) : jsstring :=
  match c with
  | Some x => s ++ [x]
  | None => s
  end.

(** [if (currentDescriptor) descriptors.push(currentDescriptor)] *)
Definition pushCurrent (v : Vars.t) : Vars.t :=
  match Vars.currentDescriptor v with
  | [] => v
  | _ => Vars.set_descriptors
           (Vars.descriptors v ++ [Vars.currentDescriptor v]) v
  end.

(** [position += 1] *)
Definition advance (v : Vars.t) : Vars.t :=
  Vars.set_position (Vars.position v + 1) v.

(** One turn of the [while (true)] loop of [tokenize]. *)
Definition tokenizeTurn (input : jsstring) (v : Vars.t) : Turn :=
  let c := charAt input (Vars.position v) in
  match Vars.state v with
  | InDescriptor =>
      if optCharTest isASCIIWhitespace c then
        match Vars.currentDescriptor v with
        | [] => Continue (advance v)
        | _ =>
            Continue
              (advance
                 (Vars.set_state AfterDescriptor
                    (Vars.set_currentDescriptor [] (pushCurrent v))))
        end
      else if optCharIs c "," then
        DescriptorParser (pushCurrent (advance v))
      else if optCharIs c "(" then
        Continue
          (advance
             (Vars.set_state InParens
                (Vars.set_currentDescriptor
                   (appendChar (Vars.currentDescriptor v) c) v)))
      else if isEOF c then
        DescriptorParser (pushCurrent v)
      else
        Continue
          (advance
             (Vars.set_currentDescriptor
                (appendChar (Vars.currentDescriptor v) c) v))
  | InParens =>
      if optCharIs c ")" then
        Continue
          (advance
             (Vars.set_state InDescriptor
                (Vars.set_currentDescriptor
                   (appendChar (Vars.currentDescriptor v) c) v)))
      else if isEOF c then
        DescriptorParser
          (Vars.set_descriptors
             (Vars.descriptors v ++ [Vars.currentDescriptor v]) v)
      else
        Continue
          (advance
             (Vars.set_currentDescriptor
                (appendChar (Vars.currentDescriptor v) c) v))
  | AfterDescriptor =>
      if optCharTest isASCIIWhitespace c then Continue (advance v)
      else if isEOF c then DescriptorParser v
      else
        Continue
          (advance
             (Vars.set_position (Vars.position v - 1)
                (Vars.set_state InDescriptor v)))
  end.

(** The [while (true)] loop of [tokenize], for at most [fuel] turns: the
    variables at the jump to the descriptor parser. *)
Fixpoint tokenizeLoop (fuel : nat) (input : jsstring) (v : Vars.t)
  : option Vars.t :=
  match fuel with
  | O => None
  | S fuel' =>
      match tokenizeTurn input v with
      | Continue v' => tokenizeLoop fuel' input v'
      | DescriptorParser v' => Some v'
      end
  end.

(** The variables [tokenize] enters its loop with. *)
Definition tokenizeEnter (input : jsstring) (v : Vars.t) : Vars.t :=
  let v := snd (collectCharacters regexLeadingSpaces input v) in
  let v := Vars.set_currentDescriptor [] v in
  Vars.set_state InDescriptor v.

(** [tokenize()] with a bound on the turns of its loop: every path out of
    the loop calls [parseDescriptors()] and returns. *)
Definition tokenize (fuel : nat) (input : jsstring) (v : Vars.t)
  : option (Vars.t + Thrown) :=
  match tokenizeLoop fuel input (tokenizeEnter input v) with
  | Some v' => Some (parseDescriptors input v')
  | None => None
  end.

(** ** parseSrcset *)

(** [url.slice(-1) === ","] *)
Definition endsWithComma (url : jsstring) : bool :=
  optCharIs (lastCharOf url) ",".

(** How one turn of the splitting loop ends: back at the top of the loop,
    or out of [parseSrcset] by [return] or [throw]. *)
Inductive SplittingTurn :=
| SplittingLoop (v : Vars.t)
| Complete (c : Completion).

(** One turn of the splitting loop, with at most [tokenFuel] turns of the
    tokenizer. [None]: the tokenizer's bound was reached. *)
Definition splittingTurn (tokenFuel : nat) (input : jsstring) (v : Vars.t)
  : option SplittingTurn :=
  let v := snd (collectCharacters regexLeadingCommasOrSpaces input v) in
  if (Vars.position v >=? jslength input)%Z then
    if (List.length (Vars.candidates v) =? 0)%nat
    then Some (Complete (Throw (Error messageNoCandidates)))
    else Some (Complete (Return (Vars.candidates v)))
  else
    let v := Vars.set_startOffset (Vars.position v) v in
    let '(url, v) := collectCharacters regexLeadingNotSpaces input v in
    let v := Vars.set_descriptors [] v in
    match url with
    | None => Some (Complete (Throw TypeError))
    | Some url =>
        let v := Vars.set_url url v in
        if endsWithComma url then
          let v := Vars.set_url (replaceTrailingCommas url) v in
          match parseDescriptors input v with
          | inl v' => Some (SplittingLoop v')
          | inr e => Some (Complete (Throw e))
          end
        else
          match tokenize tokenFuel input v with
          | None => None
          | Some (inl v') => Some (SplittingLoop v')
          | Some (inr e) => Some (Complete (Throw e))
          end
    end.

(** The splitting loop, for at most [fuel] turns. [None]: a bound was
    reached. *)
Fixpoint splittingLoop (fuel tokenFuel : nat) (input : jsstring) (v : Vars.t)
  : option Completion :=
  match fuel with
  | O => None
  | S fuel' =>
      match splittingTurn tokenFuel input v with
      | None => None
      | Some (SplittingLoop v') => splittingLoop fuel' tokenFuel input v'
      | Some (Complete c) => Some c
      end
  end.

(** Bounds on the turns of the two loops in terms of the input. *)
Definition tokenizeBound (input : jsstring) : nat := 2 * List.length input + 2.
Definition splittingBound (input : jsstring) : nat := List.length input + 1.

(** [parseSrcset(input)]; [None] would mean that a loop did not end within
    its bound. *)
Definition parseSrcset (input : jsstring) : option Completion :=
  splittingLoop (splittingBound input) (tokenizeBound input) input Vars.initial.


(** ** Definitions the statements use *)

(** A measure the turns of the tokenizer's loop decrease: twice the number
    of code units from [position] on, plus one in the after-descriptor
    state, whose rewind leaves [position] in place. *)
Definition tokenizeMeasure (input : jsstring) (v : Vars.t) : nat :=
  2 * (List.length input - Z.to_nat (Vars.position v))
  + match Vars.state v with AfterDescriptor => 1 | _ => 0 end.

(** What the turns of the tokenizer leave unchanged. *)
Definition sameCandidate (v v' : Vars.t) : Prop :=
  Vars.url v' = Vars.url v
  /\ Vars.startOffset v' = Vars.startOffset v
  /\ Vars.candidates v' = Vars.candidates v.

(** The candidate [parseDescriptors] builds from [url], [startOffset] and
    the locals the loop over the descriptors leaves. *)
Definition candidateOf (url : jsstring) (startOffset : Z) (l : DescriptorVars)
  : Candidate :=
  {| source := {| value := url; startOffset := startOffset |};
     width := fieldOf (w l);
     density := fieldOf (d l);
     height := fieldOf (h l) |}.

(** The three ways a call of [parseSrcset] ends. *)
Definition returnsOrThrows (input : jsstring) (c : Completion) : Prop :=
  (exists cs, c = Return cs /\ cs <> [])
  \/ c = Throw (Error messageNoCandidates)
  \/ (exists x, c = Throw (Error (messageInvalidDescriptor input (Some x)))).

(** The Number 1. *)
Definition one : Number := S754_finite false 4503599627370496 (-52).

(** The invariant of the loop over the descriptors: unless the error flag
    is set, a density that counts as present has no width or height that
    counts as present beside it. *)
Definition exclusive (l : DescriptorVars) : Prop :=
  pError l = true
  \/ (truthyOpt (d l) = true ->
      truthyOpt (w l) = false /\ truthyOpt (h l) = false).

(** The tokenizer's loop, entered with [v], jumps to the descriptor parser
    with [r]. *)
Definition tokenizesTo (input : jsstring) (v r : Vars.t) : Prop :=
  exists n, tokenizeLoop n input v = Some r.

(** A code unit that the in-descriptor state appends to the current
    descriptor. *)
Definition plain (c : char) : bool :=
  negb (isASCIIWhitespace c)
  && negb (char_eqb c (code ","))
  && negb (char_eqb c (code "(")).

(** Where a run of the tokenizer ends: the URL, the start offset and the
    candidates are those it was entered with, the descriptors are [ds], and
    [position] has only separators after it. *)
Definition endsWith (input u : jsstring) (ds : list jsstring) (so : Z)
  (cs : list Candidate) (r : Vars.t) : Prop :=
  Vars.url r = u
  /\ Vars.descriptors r = ds
  /\ Vars.startOffset r = so
  /\ Vars.candidates r = cs
  /\ exists a post,
      input = a ++ post
      /\ Vars.position r = jslength a
      /\ Forall (fun c => classCommaOrSpace c = true) post.

(** The shape of an input with one candidate: separators, a URL that
    neither starts nor ends with a comma, whitespace, one descriptor without
    whitespace, comma or left parenthesis, separators. *)
Record SingleCandidate (pre url ws dsc post : jsstring) : Prop := {
  sc_pre : Forall (fun c => classCommaOrSpace c = true) pre;
  sc_url : Forall (fun c => classNotSpace c = true) url;
  sc_url_head : exists c r, url = c :: r /\ classCommaOrSpace c = false;
  sc_url_last : endsWithComma url = false;
  sc_ws : Forall (fun c => classSpace c = true) ws;
  sc_ws_head : ws <> [];
  sc_dsc : Forall (fun c => plain c = true) dsc;
  sc_dsc_head : dsc <> [];
  sc_post : Forall (fun c => classCommaOrSpace c = true) post
}.

(** The code units the classes of a pattern contain. *)
Fixpoint alphabet (r : regex) (c : char) : bool :=
  match r with
  | Void | Eps => false
  | Cls p => p c
  | Alt a b | Seq a b => alphabet a c || alphabet b c
  | Star a => alphabet a c
  end.

(** A pattern that, by its shape, matches no string. *)
Fixpoint isVoid (r : regex) : bool :=
  match r with
  | Void => true
  | Alt a b => isVoid a && isVoid b
  | Seq a b => isVoid a || isVoid b
  | _ => false
  end.

(** A URL as the splitting loop collects it when a descriptor follows: not
    empty, without whitespace, and neither starting nor ending with a
    comma. *)
Definition plainUrl (url : jsstring) : Prop :=
  Forall (fun c => classNotSpace c = true) url
  /\ (exists c r, url = c :: r /\ classCommaOrSpace c = false)
  /\ endsWithComma url = false.

(** How a turn of the splitting loop ends once the descriptors of its
    candidate are collected: as [parseDescriptors] does. *)
Definition afterDescriptors (input : jsstring) (v : Vars.t) : SplittingTurn :=
  match parseDescriptors input v with
  | inl v' => SplittingLoop v'
  | inr e => Complete (Throw e)
  end.

(** A descriptor that can pass the loop of [parseDescriptors] without the
    error flag: a valid non-negative integer other than zero followed by
    [w] or [h], or a valid floating-point number that is not less than zero
    followed by [x]. *)
Definition acceptedDescriptor (dsc : jsstring) : Prop :=
  exists num u,
    dsc = num ++ [u]
    /\ (((u = code "w" \/ u = code "h")
         /\ Regex.test regexNonNegativeInteger num = true
         /\ strictEq (parseInt num) zero = false)
        \/ (u = code "x"
            /\ Regex.test regexFloatingPoint num = true
            /\ lt (parseFloat num) zero = false)).

(** The three local variables of [parseDescriptors] a descriptor can set. *)
Inductive Slot := SlotW | SlotD | SlotH.

Definition slotOf (s : Slot) (l : DescriptorVars) : option Number :=
  match s with
  | SlotW => w l
  | SlotD => d l
  | SlotH => h l
  end.

(** [dsc] is a descriptor for the slot [s]: a valid non-negative integer
    followed by [w] or [h], or a valid floating-point number followed by
    [x]; [num] is its number. *)
Definition descriptorFor (s : Slot) (num dsc : jsstring) : Prop :=
  match s with
  | SlotW => dsc = num ++ str "w"
             /\ Regex.test regexNonNegativeInteger num = true
  | SlotD => dsc = num ++ str "x"
             /\ Regex.test regexFloatingPoint num = true
  | SlotH => dsc = num ++ str "h"
             /\ Regex.test regexNonNegativeInteger num = true
  end.

(** The pairs of slots whose guards test each other: all but width with
    height. *)
Definition excludes (s1 s2 : Slot) : bool :=
  match s1, s2 with
  | SlotW, SlotH | SlotH, SlotW => false
  | _, _ => true
  end.

(** The slot holds a number that counts as present, or the error flag is
    set. *)
Definition occupied (s : Slot) (l : DescriptorVars) : Prop :=
  pError l = true \/ truthyOpt (slotOf s l) = true.

(** [s] is a non-empty run of consecutive code units of [input]. *)
Definition isRunOf (input s : jsstring) : Prop :=
  s <> [] /\ exists pre post, input = pre ++ s ++ post.

(** [s] is the run of [input] that ends just before the index [p]. *)
Definition endsAt (input s : jsstring) (p : Z) : Prop :=
  exists pre, firstn (Z.to_nat p) input = pre ++ s.

(** What the tokenizer's loop keeps true of its variables: the current
    descriptor is the run of the input that ends at [position], it is not
    empty inside parentheses and is empty after a descriptor, and the
    descriptors pushed are non-empty runs of the input. *)
Definition tokenizerInvariant (input : jsstring) (v : Vars.t) : Prop :=
  (0 <= Vars.position v)%Z
  /\ endsAt input (Vars.currentDescriptor v) (Vars.position v)
  /\ (Vars.state v = InParens -> Vars.currentDescriptor v <> [])
  /\ (Vars.state v = AfterDescriptor -> Vars.currentDescriptor v = [])
  /\ Forall (isRunOf input) (Vars.descriptors v).

(** A candidate with its start offset moved by [k]. *)
Definition shiftCandidate (k : Z) (c : Candidate) : Candidate :=
  {| source := {| value := value (source c);
                  startOffset := startOffset (source c) + k |};
     width := width c;
     density := density c;
     height := height c |}.

(** The variables with [position], [startOffset] and the start offsets of
    the candidates moved by [k]. *)
Definition shiftVars (k : Z) (v : Vars.t) : Vars.t :=
  Vars.mk (Vars.url v) (Vars.descriptors v) (Vars.currentDescriptor v)
    (Vars.state v) (Vars.position v + k) (Vars.startOffset v + k)
    (map (shiftCandidate k) (Vars.candidates v)).

(** How a call on [input] ends and how the call on [longer], the same input
    after [k] more code units, ends: the same way, with the start offsets
    moved by [k] and the longer input quoted in the message. *)
Inductive shifted (k : Z) (input longer : jsstring)
  : Completion -> Completion -> Prop :=
| shifted_Return (cs : list Candidate) :
    shifted k input longer (Return cs) (Return (map (shiftCandidate k) cs))
| shifted_NoCandidates :
    shifted k input longer (Throw (Error messageNoCandidates))
      (Throw (Error messageNoCandidates))
| shifted_InvalidDescriptor (dsc : option jsstring) :
    shifted k input longer
      (Throw (Error (messageInvalidDescriptor input dsc)))
      (Throw (Error (messageInvalidDescriptor longer dsc))).

(** * Properties *)

(** ** Strings *)

Section StringFacts.

Variable p : char -> bool.

Lemma takeWhile_dropWhile (s : jsstring) :
  takeWhile p s ++ dropWhile p s = s.
Proof.
  induction s as [|c r IH]; simpl; [reflexivity|].
  destruct (p c); simpl; [now rewrite IH | reflexivity].
Qed.

(** A run of the class followed by nothing or by a code unit outside it is
    what [takeWhile] returns. *)
Lemma takeWhile_app (a b : jsstring) :
  Forall (fun c => p c = true) a ->
  takeWhile p b = [] ->
  takeWhile p (a ++ b) = a.
Proof.
  induction 1 as [|c r Hc _ IH]; intros Hb; simpl; [assumption|].
  now rewrite Hc, IH.
Qed.

Lemma dropWhile_firstn (s : jsstring) :
  exists n, dropWhile p s = skipn n s.
Proof.
  induction s as [|c r [n IH]]; simpl.
  - now exists 0%nat.
  - destruct (p c); [exists (S n); assumption | now exists 0%nat].
Qed.

End StringFacts.

Lemma charAt_Some (s : jsstring) (n : Z) (c : char) :
  charAt s n = Some c -> (0 <= n < jslength s)%Z.
Proof.
  unfold charAt, jslength. destruct (Z.ltb_spec n 0); [discriminate|].
  intros E. assert (Hn : nth_error s (Z.to_nat n) <> None) by congruence.
  apply nth_error_Some in Hn. lia.
Qed.

Lemma charAt_app (a b : jsstring) :
  charAt (a ++ b) (jslength a) = nth_error b 0.
Proof.
  unfold charAt, jslength. destruct (Z.ltb_spec (Z.of_nat (List.length a)) 0); [lia|].
  rewrite Nat2Z.id, nth_error_app2 by lia. now rewrite Nat.sub_diag.
Qed.

Lemma substring_from_app (a b : jsstring) :
  substring_from (a ++ b) (jslength a) = b.
Proof.
  unfold substring_from, jslength. rewrite Nat2Z.id.
  rewrite skipn_app, skipn_all, Nat.sub_diag. reflexivity.
Qed.

Lemma lastCharOf_snoc (s : jsstring) (u : char) : lastCharOf (s ++ [u]) = Some u.
Proof.
  unfold lastCharOf. destruct (s ++ [u]) eqn:E.
  - now destruct s.
  - rewrite <- E, length_app, nth_error_app2; simpl; [|lia].
    replace (List.length s + 1 - 1 - List.length s)%nat with 0%nat by lia.
    reflexivity.
Qed.

Lemma substring_snoc (s : jsstring) (u : char) :
  substring (s ++ [u]) 0 (jslength (s ++ [u]) - 1) = s.
Proof.
  unfold substring, jslength. rewrite length_app. simpl.
  replace (Z.to_nat (Z.of_nat (List.length s + 1) - 1) - 0)%nat
    with (List.length s) by lia.
  now rewrite firstn_app, Nat.sub_diag, firstn_all, app_nil_r.
Qed.

(** ** The tokenizer's loop *)

Ltac turn_cases v input :=
  unfold tokenizeTurn;
  destruct (Vars.state v) eqn:Est;
  destruct (charAt input (Vars.position v)) as [c|] eqn:Ec; simpl;
  repeat match goal with
  | |- context [if ?b then _ else _] => destruct b eqn:?
  | |- context [match Vars.currentDescriptor v with _ => _ end] =>
      destruct (Vars.currentDescriptor v) eqn:?
  end.

Lemma tokenizeTurn_Continue (input : jsstring) (v v' : Vars.t) :
  tokenizeTurn input v = Continue v' ->
  (0 <= Vars.position v < jslength input)%Z
  /\ (Vars.position v <= Vars.position v' <= Vars.position v + 1)%Z
  /\ sameCandidate v v'
  /\ (tokenizeMeasure input v' < tokenizeMeasure input v)%nat.
Proof.
  unfold tokenizeMeasure, sameCandidate.
  turn_cases v input; intros E; inversion E; subst v'; clear E;
    try discriminate;
    apply charAt_Some in Ec; unfold jslength in *;
    unfold pushCurrent;
    repeat match goal with
    | H : Vars.currentDescriptor v = _ |- _ => rewrite H; clear H
    end;
    simpl; rewrite ?Est; repeat split; lia.
Qed.

Lemma tokenizeTurn_DescriptorParser (input : jsstring) (v v' : Vars.t) :
  tokenizeTurn input v = DescriptorParser v' ->
  (Vars.position v <= Vars.position v' <= Vars.position v + 1)%Z
  /\ sameCandidate v v'.
Proof.
  unfold sameCandidate.
  turn_cases v input; intros E; inversion E; subst v'; clear E;
    unfold pushCurrent; simpl;
    try (destruct (Vars.currentDescriptor v)); simpl;
    repeat split; lia.
Qed.

Lemma tokenizeLoop_total (fuel : nat) (input : jsstring) :
  forall v,
    (tokenizeMeasure input v < fuel)%nat ->
    exists v', tokenizeLoop fuel input v = Some v'
               /\ (Vars.position v <= Vars.position v')%Z
               /\ sameCandidate v v'.
Proof.
  induction fuel as [|fuel IH]; intros v Hm; [lia|].
  simpl. destruct (tokenizeTurn input v) as [v1|v1] eqn:E.
  - apply tokenizeTurn_Continue in E as (_ & Hp & (Hu & Hs & Hc) & Hd).
    destruct (IH v1) as (v' & Hrun & Hp' & (Hu' & Hs' & Hc')); [lia|].
    exists v'. unfold sameCandidate. repeat split; try congruence; lia.
  - apply tokenizeTurn_DescriptorParser in E as (Hp & Hsame).
    exists v1. repeat split; try apply Hsame; lia.
Qed.

Lemma tokenizeLoop_mono (n m : nat) (input : jsstring) :
  forall v r,
    tokenizeLoop n input v = Some r -> (n <= m)%nat ->
    tokenizeLoop m input v = Some r.
Proof.
  revert m. induction n as [|n IH]; intros m v r H Hle; [discriminate|].
  destruct m as [|m]; [lia|]. simpl in *.
  destruct (tokenizeTurn input v); [apply IH; [assumption | lia] | assumption].
Qed.

(** ** collectCharacters *)

Lemma skipn_takeWhile (p : char -> bool) (s : jsstring) :
  skipn (List.length (takeWhile p s)) s = dropWhile p s.
Proof.
  induction s as [|c r IH]; simpl; [reflexivity|].
  destruct (p c); simpl; [assumption | reflexivity].
Qed.

Lemma takeWhile_dropWhile_nil (p : char -> bool) (s : jsstring) :
  takeWhile p (dropWhile p s) = [].
Proof.
  induction s as [|c r IH]; simpl; [reflexivity|].
  destruct (p c) eqn:E; simpl; [assumption | now rewrite E].
Qed.

Lemma collectCharacters_spec (p : char -> bool) (input : jsstring) (v : Vars.t) :
  (0 <= Vars.position v)%Z ->
  let chars := takeWhile p (substring_from input (Vars.position v)) in
  let v' := snd (collectCharacters p input v) in
  fst (collectCharacters p input v)
    = match chars with [] => None | _ => Some chars end
  /\ Vars.position v' = (Vars.position v + jslength chars)%Z
  /\ substring_from input (Vars.position v')
     = dropWhile p (substring_from input (Vars.position v))
  /\ Vars.url v' = Vars.url v
  /\ Vars.descriptors v' = Vars.descriptors v
  /\ Vars.startOffset v' = Vars.startOffset v
  /\ Vars.candidates v' = Vars.candidates v.
Proof.
  intros Hpos chars v'. subst v'. unfold collectCharacters. fold chars.
  assert (Hskip : substring_from input (Vars.position v + jslength chars)
                  = dropWhile p (substring_from input (Vars.position v))).
  { unfold substring_from, jslength.
    rewrite Z2Nat.inj_add, Nat2Z.id by lia.
    rewrite Nat.add_comm, <- skipn_skipn. apply skipn_takeWhile. }
  destruct chars as [|c r] eqn:E; simpl.
  - repeat split; try reflexivity.
    + unfold jslength. simpl. lia.
    + rewrite <- Hskip. unfold jslength. simpl. now rewrite Z.add_0_r.
  - repeat split; try reflexivity. exact Hskip.
Qed.

(** ** parseDescriptors *)

Lemma parseDescriptors_spec (input : jsstring) (v : Vars.t) :
  let l := validateDescriptors (Vars.descriptors v) in
  parseDescriptors input v
  = if pError l
    then inr (Error (messageInvalidDescriptor input (desc l)))
    else inl (Vars.set_candidates
                (Vars.candidates v
                 ++ [candidateOf (Vars.url v) (Vars.startOffset v) l]) v).
Proof.
  unfold parseDescriptors, candidateOf. simpl.
  destruct (pError (validateDescriptors (Vars.descriptors v))); reflexivity.
Qed.

(** ** One turn of the splitting loop *)

Lemma substring_from_nil (s : jsstring) (n : Z) :
  (0 <= n)%Z ->
  ((n >=? jslength s)%Z = true <-> substring_from s n = []).
Proof.
  intros Hn. unfold substring_from, jslength. rewrite Z.geb_le. split.
  - intros H. apply skipn_all2. lia.
  - intros H. assert (L : List.length (skipn (Z.to_nat n) s) = 0%nat)
      by now rewrite H.
    rewrite length_skipn in L. lia.
Qed.

Lemma classNotSpace_of_notCommaOrSpace (c : char) :
  classCommaOrSpace c = false -> classNotSpace c = true.
Proof.
  unfold classCommaOrSpace, classNotSpace. intros H.
  apply orb_false_elim in H as [_ ->]. reflexivity.
Qed.

Lemma dropWhile_head (p : char -> bool) (s : jsstring) (c : char) (r : jsstring) :
  dropWhile p s = c :: r -> p c = false.
Proof.
  intros E. pose proof (takeWhile_dropWhile_nil p s) as H.
  rewrite E in H. simpl in H. destruct (p c); [discriminate | reflexivity].
Qed.

(** What a turn of the splitting loop does, in terms of the input that
    [position] has not passed: either only separators are left and the call
    completes, or a URL is collected at [so], descriptors [ds] are collected
    for it, and the turn ends as [parseDescriptors] does on them. *)
Lemma splittingTurn_spec (tokenFuel : nat) (input : jsstring) (v : Vars.t) :
  (0 <= Vars.position v)%Z ->
  (tokenizeBound input <= tokenFuel)%nat ->
  let here := substring_from input (Vars.position v) in
  let rest := dropWhile classCommaOrSpace here in
  let so := (Vars.position v + jslength (takeWhile classCommaOrSpace here))%Z in
  let chars := takeWhile classNotSpace rest in
  (rest = []
   /\ splittingTurn tokenFuel input v
      = Some (Complete
                match Vars.candidates v with
                | [] => Throw (Error messageNoCandidates)
                | cs => Return cs
                end))
  \/ (rest <> [] /\ chars <> []
      /\ substring_from input so = rest
      /\ exists ds u,
          (u = chars \/ u = replaceTrailingCommas chars)
          /\ let l := validateDescriptors ds in
             if pError l
             then splittingTurn tokenFuel input v
                  = Some (Complete
                            (Throw (Error (messageInvalidDescriptor input (desc l)))))
             else exists v',
                 splittingTurn tokenFuel input v = Some (SplittingLoop v')
                 /\ Vars.candidates v'
                    = Vars.candidates v ++ [candidateOf u so l]
                 /\ (so + jslength chars <= Vars.position v')%Z).
Proof.
  intros Hpos Hfuel here rest so chars.
  unfold splittingTurn.
  destruct (collectCharacters_spec classCommaOrSpace input v Hpos)
    as (_ & Hp1 & Hr1 & Hu1 & Hd1 & Hs1 & Hc1).
  fold here in Hp1, Hr1. fold so in Hp1. fold rest in Hr1.
  unfold regexLeadingCommasOrSpaces.
  set (v1 := snd (collectCharacters classCommaOrSpace input v)) in *.
  assert (Hso : (0 <= so)%Z) by (unfold so, jslength; lia).
  destruct (Vars.position v1 >=? jslength input)%Z eqn:Hge.
  - left. rewrite Hp1 in *. apply substring_from_nil in Hge; [|assumption].
    rewrite Hr1 in Hge. split; [assumption|].
    rewrite Hc1. destruct (Vars.candidates v); reflexivity.
  - right.
    assert (Hne : rest <> []).
    { intros E. rewrite <- Hr1 in E. apply substring_from_nil in E; [|lia].
      congruence. }
    assert (Hch : chars <> []).
    { unfold chars. destruct rest as [|c r] eqn:Er; [congruence|].
      simpl. apply dropWhile_head in Er.
      now rewrite (classNotSpace_of_notCommaOrSpace _ Er). }
    split; [assumption|]. split; [assumption|].
    split; [now rewrite <- Hp1|].
    set (v2 := Vars.set_startOffset (Vars.position v1) v1).
    assert (Hpos2 : (0 <= Vars.position v2)%Z) by (simpl; lia).
    destruct (collectCharacters_spec classNotSpace input v2 Hpos2)
      as (Hf3 & Hp3 & Hr3 & Hu3 & Hd3 & Hs3 & Hc3).
    unfold regexLeadingNotSpaces.
    destruct (collectCharacters classNotSpace input v2) as [url v3] eqn:Ecol.
    simpl in Hf3, Hp3, Hr3, Hu3, Hd3, Hs3, Hc3.
    rewrite Hr1 in Hf3, Hp3, Hr3. fold chars in Hf3, Hp3.
    destruct chars as [|c0 r0] eqn:Echars; [congruence|]. subst url.
    rewrite Hp1 in Hp3.
    destruct (endsWithComma (c0 :: r0)) eqn:Ecomma.
    + exists [], (replaceTrailingCommas (c0 :: r0)). split; [now right|].
      rewrite parseDescriptors_spec. simpl.
      eexists. split; [reflexivity|]. simpl.
      rewrite Hs3, Hc3, Hc1, Hp1. split; [reflexivity | lia].
    + unfold tokenize.
      set (v4 := tokenizeEnter input _).
      destruct (tokenizeLoop_total (fuel := tokenFuel) input v4)
        as (v5 & Hrun & Hp5 & (Hu5 & Hs5 & Hc5)).
      { unfold tokenizeMeasure, tokenizeBound in *. simpl. lia. }
      rewrite Hrun. exists (Vars.descriptors v5), (c0 :: r0).
      split; [now left|].
      rewrite parseDescriptors_spec. simpl.
      destruct (pError (validateDescriptors (Vars.descriptors v5)));
        [reflexivity|].
      eexists. split; [reflexivity|]. simpl.
      rewrite Hu5, Hs5, Hc5. unfold v4, tokenizeEnter. simpl.
      assert (Hpos3 : (0 <= Vars.position
                              (Vars.set_url (c0 :: r0)
                                 (Vars.set_descriptors [] v3)))%Z)
        by (simpl; rewrite Hp3; unfold jslength; lia).
      destruct (collectCharacters_spec classSpace input _ Hpos3)
        as (_ & Hp6 & _ & Hu6 & _ & Hs6 & Hc6).
      unfold regexLeadingSpaces. rewrite Hu6, Hs6, Hc6. simpl.
      rewrite Hs3, Hc3. simpl. rewrite Hc1, Hp1.
      split; [reflexivity|].
      unfold v4, tokenizeEnter, regexLeadingSpaces in Hp5. simpl in Hp5.
      rewrite Hp6 in Hp5. simpl in Hp5. unfold jslength in *. lia.
Qed.

(** ** The loop over the descriptors *)

Lemma descriptorStep_desc (l : DescriptorVars) (x : jsstring) :
  desc (descriptorStep l x) = Some x.
Proof.
  unfold descriptorStep.
  repeat match goal with
  | |- context [if ?b then _ else _] => destruct b
  end; reflexivity.
Qed.

Lemma descriptorStep_pError (l : DescriptorVars) (x : jsstring) :
  pError l = true -> pError (descriptorStep l x) = true.
Proof.
  intros H. unfold descriptorStep.
  repeat match goal with
  | |- context [if ?b then _ else _] => destruct b
  end; simpl; auto.
Qed.

Lemma fold_descriptorStep_pError (ds : list jsstring) :
  forall l, pError l = true -> pError (fold_left descriptorStep ds l) = true.
Proof.
  induction ds as [|x ds IH]; intros l H; simpl; [assumption|].
  apply IH, descriptorStep_pError, H.
Qed.

(** After the loop [desc] holds the last descriptor, whatever the loop
    found. *)
Lemma validateDescriptors_desc (ds : list jsstring) (x : jsstring) :
  desc (validateDescriptors (ds ++ [x])) = Some x.
Proof.
  unfold validateDescriptors. rewrite fold_left_app. simpl.
  apply descriptorStep_desc.
Qed.

Lemma validateDescriptors_pError_desc (ds : list jsstring) :
  pError (validateDescriptors ds) = true ->
  exists x, desc (validateDescriptors ds) = Some x /\ In x ds.
Proof.
  destruct ds as [|y ds0]; [discriminate|]. intros _.
  destruct (@exists_last _ (y :: ds0)) as (ds' & x & E); [discriminate|].
  rewrite E. exists x. split; [apply validateDescriptors_desc|].
  apply in_or_app. right. now left.
Qed.

(** ** The splitting loop *)

Lemma splittingLoop_total (tokenFuel : nat) (input : jsstring) :
  (tokenizeBound input <= tokenFuel)%nat ->
  forall fuel v,
    (0 <= Vars.position v)%Z ->
    (List.length input - Z.to_nat (Vars.position v) < fuel)%nat ->
    exists c, splittingLoop fuel tokenFuel input v = Some c
              /\ returnsOrThrows input c.
Proof.
  intros Htok. induction fuel as [|fuel IH]; intros v Hpos Hfuel; [lia|].
  simpl.
  destruct (splittingTurn_spec input v Hpos Htok)
    as [(_ & ->) | (Hne & Hch & Hsub & ds & u & _ & Hres)].
  - eexists. split; [reflexivity|]. unfold returnsOrThrows.
    destruct (Vars.candidates v) eqn:E; [now right; left|].
    left. eexists. split; [reflexivity | discriminate].
  - simpl in Hres.
    destruct (pError (validateDescriptors ds)) eqn:Hp.
    + rewrite Hres. eexists. split; [reflexivity|].
      right. right.
      destruct (validateDescriptors_pError_desc ds Hp) as (x & -> & _).
      now exists x.
    + destruct Hres as (v' & -> & _ & Hadv).
      assert (Hlen : (Vars.position v < jslength input)%Z).
      { destruct (Z.ltb_spec (Vars.position v) (jslength input)); [assumption|].
        exfalso. apply Hne.
        assert (E : substring_from input (Vars.position v) = []).
        { apply substring_from_nil; [assumption | now apply Z.geb_le]. }
        now rewrite E. }
      assert (Hc : (1 <= jslength
                          (takeWhile classNotSpace
                             (dropWhile classCommaOrSpace
                                (substring_from input (Vars.position v)))))%Z).
      { destruct (takeWhile classNotSpace _); [congruence|].
        unfold jslength. simpl. lia. }
      apply IH; unfold jslength in *; lia.
Qed.

(** A property of every candidate [parseDescriptors] can push holds of
    every candidate returned. *)
Lemma splittingLoop_Forall (Q : Candidate -> Prop) (tokenFuel : nat)
  (input : jsstring) :
  (tokenizeBound input <= tokenFuel)%nat ->
  (forall so u ds,
      (0 <= so)%Z ->
      let chars := takeWhile classNotSpace (substring_from input so) in
      chars <> [] ->
      u = chars \/ u = replaceTrailingCommas chars ->
      pError (validateDescriptors ds) = false ->
      Q (candidateOf u so (validateDescriptors ds))) ->
  forall fuel v cs,
    (0 <= Vars.position v)%Z ->
    Forall Q (Vars.candidates v) ->
    splittingLoop fuel tokenFuel input v = Some (Return cs) ->
    Forall Q cs.
Proof.
  intros Htok HQ. induction fuel as [|fuel IH]; intros v cs Hpos Hall;
    [discriminate|].
  simpl.
  destruct (splittingTurn_spec input v Hpos Htok)
    as [(_ & ->) | (Hne & Hch & Hsub & ds & u & Hu & Hres)].
  - destruct (Vars.candidates v); [discriminate|].
    intros E. injection E as <-. assumption.
  - simpl in Hres.
    set (so := (Vars.position v + jslength _)%Z) in *.
    assert (Hso : (0 <= so)%Z) by (unfold so, jslength; lia).
    destruct (pError (validateDescriptors ds)) eqn:Hp.
    + rewrite Hres. discriminate.
    + destruct Hres as (v' & -> & Hcs & Hadv).
      apply IH.
      * assert (H0 : (0 <= jslength
                              (takeWhile classNotSpace
                                 (dropWhile classCommaOrSpace
                                    (substring_from input (Vars.position v)))))%Z)
          by (unfold jslength; lia).
        lia.
      * rewrite Hcs. apply Forall_app. split; [assumption|].
        constructor; [|constructor].
        apply HQ; try assumption; rewrite Hsub; assumption.
Qed.

(** ** Concrete numbers *)

(** The model of the numeric literals on literals whose binary64 value is
    known: 0.1, a tie rounded to even, the largest finite number, overflow
    to Infinity, the smallest subnormal, underflow to zero with the sign
    kept, and what [parseInt] and [parseFloat] read of a longer string. *)
Lemma number_examples :
  parseFloat (str "1") = one
  /\ parseInt (str "1") = one
  /\ parseFloat (str "0.1") = S754_finite false 7205759403792794 (-56)
  /\ parseFloat (str "9007199254740993")
     = S754_finite false 4503599627370496 1
  /\ parseFloat (str "1.7976931348623157e308")
     = S754_finite false 9007199254740991 971
  /\ parseFloat (str "1.7976931348623159e308") = S754_infinity false
  /\ parseFloat (str "4.9e-324") = S754_finite false 1 (-1074)
  /\ parseFloat (str "-1e-400") = S754_zero true
  /\ parseFloat (str "-.5e+1x") = S754_finite true 5629499534213120 (-50)
  /\ parseFloat (str "1.") = one
  /\ parseFloat (str ".") = NaN
  /\ parseFloat (str "Infinity") = S754_infinity false
  /\ parseInt (str "12px") = S754_finite false 6755399441055744 (-49)
  /\ parseInt (str "") = NaN.
Proof. repeat split; vm_compute; reflexivity. Qed.

(** ** Inputs without a candidate *)

Lemma dropWhile_all (p : char -> bool) (s : jsstring) :
  Forall (fun c => p c = true) s -> dropWhile p s = [].
Proof.
  induction 1 as [|c r Hc _ IH]; simpl; [reflexivity|]. now rewrite Hc.
Qed.

Lemma separator_classCommaOrSpace (c : char) :
  In c [32; 9; 10; 12; 13; 44]%N -> classCommaOrSpace c = true.
Proof.
  simpl. intros [<-|[<-|[<-|[<-|[<-|[<-|[]]]]]]]; reflexivity.
Qed.

(** C3: an input made only of spaces, tabs, line feeds, form feeds, carriage
    returns and commas (the empty input included) makes [parseSrcset] throw
    the error "Must contain one or more image candidate strings."; it does
    not return an empty list. *)
Theorem C3_only_separators_throw_no_candidates (input : jsstring) :
  Forall (fun c => In c [32; 9; 10; 12; 13; 44]%N) input ->
  parseSrcset input
  = Some (Throw (Error
       (str "Must contain one or more image candidate strings."))).
Proof.
  intros Hsep.
  assert (Hall : Forall (fun c => classCommaOrSpace c = true) input).
  { eapply Forall_impl; [|exact Hsep]. apply separator_classCommaOrSpace. }
  unfold parseSrcset, splittingBound. rewrite Nat.add_1_r. simpl.
  destruct (@splittingTurn_spec (tokenizeBound input) input Vars.initial)
    as [(_ & ->) | (Hne & _)]; try (simpl; lia).
  - reflexivity.
  - exfalso. apply Hne. simpl. unfold substring_from. simpl.
    now apply dropWhile_all.
Qed.

(** C3 at the input space, comma, tab, line feed, comma, form feed,
    carriage return. *)
Lemma C3_only_separators_witness :
  Forall (fun c => In c [32; 9; 10; 12; 13; 44]%N)
    [32; 44; 9; 10; 44; 12; 13]%N
  /\ parseSrcset [32; 44; 9; 10; 44; 12; 13]%N
     = Some (Throw (Error
          (str "Must contain one or more image candidate strings."))).
Proof.
  assert (H : Forall (fun c => In c [32; 9; 10; 12; 13; 44]%N)
                [32; 44; 9; 10; 44; 12; 13]%N)
    by (repeat (apply Forall_cons; [simpl; tauto|]); apply Forall_nil).
  split; [exact H | exact (C3_only_separators_throw_no_candidates H)].
Defined.

(** ** Termination *)

(** C10: for every input, [parseSrcset] ends within the bounds of its two
    loops, and it ends by returning a non-empty list of candidates or by
    throwing one of its two errors. In the tokenizer, a turn that does not
    move [position] forward is the rewind of the after-descriptor state, it
    leaves the state in-descriptor, and every turn decreases a measure that
    counts each position from [position] on twice: no position is processed
    more than twice. *)
Theorem C10_parseSrcset_terminates (input : jsstring) :
  (exists c, parseSrcset input = Some c /\ returnsOrThrows input c)
  /\ (forall v v',
         tokenizeTurn input v = Continue v' ->
         (Vars.position v' = Vars.position v + 1
          \/ (Vars.position v' = Vars.position v
              /\ Vars.state v = AfterDescriptor
              /\ Vars.state v' = InDescriptor))%Z
         /\ (tokenizeMeasure input v' < tokenizeMeasure input v)%nat)
  /\ (forall v,
         exists v', tokenizeLoop (tokenizeBound input) input v = Some v').
Proof.
  split; [|split].
  - apply splittingLoop_total; simpl; unfold splittingBound; lia.
  - intros v v' E. split; [|now apply tokenizeTurn_Continue in E].
    revert E. turn_cases v input; intros E; inversion E; subst v'; clear E;
      simpl; try discriminate; try (left; lia); try (left; reflexivity).
    + left. unfold pushCurrent.
      match goal with
      | H : Vars.currentDescriptor v = _ |- _ => rewrite H
      end.
      simpl. lia.
    + right. repeat split; lia.
  - intros v.
    destruct (@tokenizeLoop_total (tokenizeBound input) input v)
      as (v' & H & _); [|now exists v'].
    unfold tokenizeMeasure, tokenizeBound.
    destruct (Vars.state v); lia.
Qed.

(** ** Width, height and density exclude each other *)

Lemma descriptorStep_exclusive (l : DescriptorVars) (x : jsstring) :
  exclusive l -> exclusive (descriptorStep l x).
Proof.
  unfold exclusive, descriptorStep. destruct l as [pe lw ld lh ldesc]. simpl.
  intros [-> | H].
  - left.
    repeat match goal with
    | |- context [if ?b then _ else _] => destruct b
    end; reflexivity.
  - destruct (truthyOpt lw) eqn:Ew, (truthyOpt ld) eqn:Ed,
      (truthyOpt lh) eqn:Eh; simpl;
    repeat match goal with
    | |- context [if ?b then _ else _] => destruct b
    end; simpl; rewrite ?Ew, ?Ed, ?Eh; auto;
    right; intros E; try discriminate; auto.
Qed.

Lemma validateDescriptors_exclusive (ds : list jsstring) :
  exclusive (validateDescriptors ds).
Proof.
  unfold validateDescriptors.
  assert (H : exclusive (Build_DescriptorVars false None None None None))
    by (right; discriminate).
  revert H. generalize (Build_DescriptorVars false None None None None).
  induction ds as [|x ds IH]; intros l H; simpl; [assumption|].
  apply IH, descriptorStep_exclusive, H.
Qed.

Lemma fieldOf_Some (x : option Number) :
  fieldOf x <> None -> truthyOpt x = true.
Proof. unfold fieldOf. destruct (truthyOpt x); congruence. Qed.

(** C5: no candidate of a returned list has both a width and a density, or
    both a height and a density; a width and a height can be there together:
    "data:,a 1h 1w" gives one candidate with height 1 and width 1. *)
Theorem C5_density_excludes_width_and_height :
  (forall input cs,
      parseSrcset input = Some (Return cs) ->
      Forall (fun c =>
                ~ (width c <> None /\ density c <> None)
                /\ ~ (height c <> None /\ density c <> None)) cs)
  /\ parseSrcset (str "data:,a 1h 1w")
     = Some (Return
          [ {| source := {| value := str "data:,a"; startOffset := 0 |};
               width := Some one;
               density := None;
               height := Some one |} ]).
Proof.
  split; [|vm_compute; reflexivity].
  intros input cs H. unfold parseSrcset in H.
  refine (splittingLoop_Forall _ (le_n _) _ _ _ _ _ H);
    [|simpl; lia|constructor].
  intros so u ds _ chars _ _ Hok. unfold candidateOf. simpl.
  destruct (validateDescriptors_exclusive ds) as [E | E]; [congruence|].
  split; intros [Ha Hb]; apply fieldOf_Some in Ha, Hb;
    destruct (E Hb); congruence.
Qed.

(** C5 at "data:,a 2x, data:,b 1w 3h". *)
Lemma C5_density_excludes_witness :
  parseSrcset (str "data:,a 2x, data:,b 1w 3h")
  = Some (Return
       [ candidateOf (str "data:,a") 0 (validateDescriptors [str "2x"]);
         candidateOf (str "data:,b") 12
           (validateDescriptors [str "1w"; str "3h"]) ])
  /\ Forall (fun c =>
               ~ (width c <> None /\ density c <> None)
               /\ ~ (height c <> None /\ density c <> None))
       [ candidateOf (str "data:,a") 0 (validateDescriptors [str "2x"]);
         candidateOf (str "data:,b") 12
           (validateDescriptors [str "1w"; str "3h"]) ].
Proof.
  assert (H : parseSrcset (str "data:,a 2x, data:,b 1w 3h")
              = Some (Return
                   [ candidateOf (str "data:,a") 0
                       (validateDescriptors [str "2x"]);
                     candidateOf (str "data:,b") 12
                       (validateDescriptors [str "1w"; str "3h"]) ]))
    by (vm_compute; reflexivity).
  split; [exact H|].
  exact (proj1 C5_density_excludes_width_and_height _ _ H).
Defined.

(** ** The source is a substring of the input *)

Lemma replaceTrailingCommas_prefix (s : jsstring) :
  exists t, s = replaceTrailingCommas s ++ t.
Proof.
  unfold replaceTrailingCommas.
  destruct (dropWhile_firstn (char_eqb (code ",")) (rev s)) as [n ->].
  rewrite skipn_rev, rev_involutive.
  exists (skipn (List.length s - n) s). symmetry. apply firstn_skipn.
Qed.

Lemma substring_prefix (input u t : jsstring) (so : Z) :
  (0 <= so)%Z ->
  substring_from input so <> [] ->
  substring_from input so = u ++ t ->
  u = substring input so (so + jslength u)
  /\ (so + jslength u <= jslength input)%Z.
Proof.
  unfold substring_from, substring, jslength. intros Hso Hne E.
  assert (Hlt : (Z.to_nat so < List.length input)%nat).
  { destruct (Nat.lt_ge_cases (Z.to_nat so) (List.length input));
      [assumption|].
    exfalso. apply Hne. now apply skipn_all2. }
  rewrite Z2Nat.inj_add, Nat2Z.id by lia.
  replace (Z.to_nat so + List.length u - Z.to_nat so)%nat
    with (List.length u) by lia.
  rewrite E, firstn_app, Nat.sub_diag, firstn_all. simpl.
  rewrite app_nil_r. split; [reflexivity|].
  assert (L : List.length (skipn (Z.to_nat so) input)
              = List.length (u ++ t)) by now rewrite E.
  rewrite length_skipn, length_app in L. lia.
Qed.

(** C7: in every candidate of a returned list, [source.value] is the
    substring of the input that starts at [source.startOffset] and has the
    length of [source.value]; the offset is an index of the input and the
    substring ends within it. This covers the URLs whose trailing commas
    were removed. *)
Theorem C7_source_is_substring_at_startOffset (input : jsstring)
  (cs : list Candidate) :
  parseSrcset input = Some (Return cs) ->
  Forall (fun c =>
            let s := source c in
            (0 <= startOffset s)%Z
            /\ (startOffset s + jslength (value s) <= jslength input)%Z
            /\ value s
               = substring input (startOffset s)
                   (startOffset s + jslength (value s))) cs.
Proof.
  intros H. unfold parseSrcset in H.
  refine (splittingLoop_Forall _ (le_n _) _ _ _ _ _ H);
    [|simpl; lia|constructor].
  intros so u ds Hso chars Hch Hu _. unfold candidateOf. simpl.
  assert (Hne : substring_from input so <> []).
  { intros E. apply Hch. unfold chars. now rewrite E. }
  assert (Hpre : exists t, substring_from input so = u ++ t).
  { pose proof (takeWhile_dropWhile classNotSpace (substring_from input so))
      as Hsplit. fold chars in Hsplit.
    destruct Hu as [-> | ->].
    - eexists. symmetry. exact Hsplit.
    - destruct (replaceTrailingCommas_prefix chars) as [t Ht].
      exists (t ++ dropWhile classNotSpace (substring_from input so)).
      rewrite app_assoc, <- Ht. symmetry. exact Hsplit. }
  destruct Hpre as [t Ht].
  destruct (substring_prefix input u t Hso Hne Ht) as [E L].
  repeat split; assumption.
Qed.

(** C7 at " data:,a,,, data:,b 2x", whose first URL loses three commas. *)
Lemma C7_source_is_substring_witness :
  parseSrcset (str " data:,a,,, data:,b 2x")
  = Some (Return
       [ candidateOf (str "data:,a") 1 (validateDescriptors []);
         candidateOf (str "data:,b") 12 (validateDescriptors [str "2x"]) ])
  /\ Forall (fun c =>
            let s := source c in
            (0 <= startOffset s)%Z
            /\ (startOffset s + jslength (value s)
                <= jslength (str " data:,a,,, data:,b 2x"))%Z
            /\ value s
               = substring (str " data:,a,,, data:,b 2x") (startOffset s)
                   (startOffset s + jslength (value s)))
       [ candidateOf (str "data:,a") 1 (validateDescriptors []);
         candidateOf (str "data:,b") 12 (validateDescriptors [str "2x"]) ].
Proof.
  assert (H : parseSrcset (str " data:,a,,, data:,b 2x")
              = Some (Return
                   [ candidateOf (str "data:,a") 1 (validateDescriptors []);
                     candidateOf (str "data:,b") 12
                       (validateDescriptors [str "2x"]) ]))
    by (vm_compute; reflexivity).
  split; [exact H|].
  exact (C7_source_is_substring_at_startOffset _ H).
Defined.

(** ** Descriptors the truthiness tests take for absent *)

(** C1: a density descriptor sets the error flag when the flag is set
    already, when [w], [d] or [h] holds a number other than 0, -0 and NaN,
    or when its own number is less than zero, and in no other case: a [d]
    that holds 0 does not count. On "data:,a 0x 1x" the first descriptor
    sets [d] to 0, the second one is not flagged and sets [d] to 1, and
    [parseSrcset] returns one candidate of density 1 instead of throwing. *)
Theorem C1_second_density_after_zero_density_is_accepted :
  (forall l num,
      Regex.test regexFloatingPoint num = true ->
      pError (descriptorStep l (num ++ str "x"))
      = pError l
        || (truthyOpt (w l) || truthyOpt (d l) || truthyOpt (h l))
        || lt (parseFloat num) zero)
  /\ validateDescriptors [str "0x"]
     = {| pError := false; w := None; d := Some (S754_zero false); h := None;
          desc := Some (str "0x") |}
  /\ validateDescriptors [str "0x"; str "1x"]
     = {| pError := false; w := None; d := Some one; h := None;
          desc := Some (str "1x") |}
  /\ parseSrcset (str "data:,a 0x 1x")
     = Some (Return
          [ {| source := {| value := str "data:,a"; startOffset := 0 |};
               width := None;
               density := Some one;
               height := None |} ]).
Proof.
  split; [|repeat split; vm_compute; reflexivity].
  intros l num Hre. unfold descriptorStep. change (str "x") with [code "x"].
  rewrite lastCharOf_snoc, substring_snoc, Hre.
  change (optCharIs (Some (code "x")) "w") with false.
  change (optCharIs (Some (code "x")) "x") with true.
  rewrite andb_false_r. cbn [andb]. destruct l as [pe lw ld lh ldesc].
  cbn [set_desc pError w d h desc].
  destruct (truthyOpt lw || truthyOpt ld || truthyOpt lh),
    (lt (parseFloat num) zero), pe; reflexivity.
Qed.

(** C2: on "data:,a 0x" the density descriptor validates without error and
    sets [d] to 0, and the candidate returned has no density; the same
    happens on "data:,a -0x", where [d] is -0. *)
Theorem C2_zero_density_is_validated_and_not_stored :
  validateDescriptors [str "0x"]
  = {| pError := false; w := None; d := Some (S754_zero false); h := None;
       desc := Some (str "0x") |}
  /\ parseSrcset (str "data:,a 0x")
     = Some (Return
          [ {| source := {| value := str "data:,a"; startOffset := 0 |};
               width := None;
               density := None;
               height := None |} ])
  /\ validateDescriptors [str "-0x"]
     = {| pError := false; w := None; d := Some (S754_zero true); h := None;
          desc := Some (str "-0x") |}
  /\ parseSrcset (str "data:,a -0x")
     = Some (Return
          [ {| source := {| value := str "data:,a"; startOffset := 0 |};
               width := None;
               density := None;
               height := None |} ]).
Proof. repeat split; vm_compute; reflexivity. Qed.

(** ** The descriptor the error message names *)

(** C8: the message names the last descriptor of the list, whichever
    descriptor set the error flag: [desc] holds the last descriptor when the
    message is built. On "data:,a foo 1x" the descriptor that sets the flag
    is "foo" ("1x" alone validates), and the message names "1x". *)
Theorem C8_message_names_the_last_descriptor :
  pError (validateDescriptors [str "foo"]) = true
  /\ pError (validateDescriptors [str "1x"]) = false
  /\ parseSrcset (str "data:,a foo 1x")
     = Some (Throw (Error
          (str "Invalid srcset descriptor found in " ++ quote
           ++ str "data:,a foo 1x" ++ quote ++ str " at " ++ quote
           ++ str "1x" ++ quote ++ str ".")))
  /\ (forall input v ds x,
         Vars.descriptors v = ds ++ [x] ->
         pError (validateDescriptors (ds ++ [x])) = true ->
         parseDescriptors input v
         = inr (Error (messageInvalidDescriptor input (Some x)))).
Proof.
  split; [vm_compute; reflexivity|]. split; [vm_compute; reflexivity|].
  split; [vm_compute; reflexivity|].
  intros input v ds x E H. rewrite parseDescriptors_spec. simpl.
  now rewrite E, H, validateDescriptors_desc.
Qed.

(** ** Parentheses *)

(** C6: in the in-parens state a code unit other than the right
    parenthesis, a comma or a whitespace among them, is appended to the
    current descriptor: the state, the list of descriptors and the
    candidates stay as they are and [position] moves on by one. On
    "data:,a ( , data:,b 1x, ), data:,c" the tokenizer, entered after the
    URL "data:,a", leaves its loop at the comma that follows the group, with
    the whole group as the one descriptor collected; that descriptor is the
    one the error thrown names. *)
Theorem C6_parens_suspend_separators :
  (forall input v c,
      Vars.state v = InParens ->
      charAt input (Vars.position v) = Some c ->
      c <> code ")" ->
      exists v',
        tokenizeTurn input v = Continue v'
        /\ Vars.currentDescriptor v' = Vars.currentDescriptor v ++ [c]
        /\ Vars.state v' = InParens
        /\ Vars.descriptors v' = Vars.descriptors v
        /\ Vars.candidates v' = Vars.candidates v
        /\ Vars.position v' = (Vars.position v + 1)%Z)
  /\ (let input := str "data:,a ( , data:,b 1x, ), data:,c" in
      exists v',
        tokenizeLoop (tokenizeBound input) input
          (tokenizeEnter input
             (Vars.mk (str "data:,a") [] [] InDescriptor 7 0 []))
        = Some v'
        /\ Vars.descriptors v' = [str "( , data:,b 1x, )"]
        /\ Vars.position v' = 26%Z
        /\ parseSrcset input
           = Some (Throw (Error
                (messageInvalidDescriptor input
                   (Some (str "( , data:,b 1x, )")))))).
Proof.
  split.
  - intros input v c Hst Hc Hne. unfold tokenizeTurn. rewrite Hst, Hc. simpl.
    destruct (char_eqb c 41%N) eqn:E.
    + apply N.eqb_eq in E. contradiction.
    + eexists. split; [reflexivity|]. simpl. rewrite Hst. repeat split.
  - cbv zeta. eexists. split; [vm_compute; reflexivity|].
    split; [reflexivity|]. split; [reflexivity|]. vm_compute. reflexivity.
Qed.

(** C6 at the comma of "a (, b", in the in-parens state. *)
Lemma C6_parens_suspend_separators_witness :
  let input := str "a (, b" in
  let v := Vars.mk (str "a") [] (str "(") InParens 3 0 [] in
  Vars.state v = InParens
  /\ charAt input (Vars.position v) = Some (code ",")
  /\ code "," <> code ")"
  /\ exists v',
      tokenizeTurn input v = Continue v'
      /\ Vars.currentDescriptor v' = str "(,"
      /\ Vars.state v' = InParens
      /\ Vars.descriptors v' = []
      /\ Vars.candidates v' = []
      /\ Vars.position v' = 4%Z.
Proof.
  assert (Hne : code "," <> code ")") by discriminate.
  repeat split; try assumption.
  exact (proj1 C6_parens_suspend_separators (str "a (, b")
           (Vars.mk (str "a") [] (str "(") InParens 3 0 [])
           (code ",") eq_refl eq_refl Hne).
Defined.

(** ** Runs of the tokenizer *)

Lemma tokenizesTo_Continue (input : jsstring) (v v1 r : Vars.t) :
  tokenizeTurn input v = Continue v1 ->
  tokenizesTo input v1 r -> tokenizesTo input v r.
Proof. intros E [n H]. exists (S n). simpl. now rewrite E. Qed.

Lemma tokenizesTo_DescriptorParser (input : jsstring) (v r : Vars.t) :
  tokenizeTurn input v = DescriptorParser r -> tokenizesTo input v r.
Proof. intros E. exists 1%nat. simpl. now rewrite E. Qed.

Lemma tokenizesTo_bound (input : jsstring) (v r : Vars.t) :
  tokenizesTo input v r ->
  tokenizeLoop (tokenizeBound input) input v = Some r.
Proof.
  intros [n H].
  destruct (@tokenizeLoop_total (tokenizeBound input) input v)
    as (r' & H' & _).
  { unfold tokenizeMeasure, tokenizeBound. destruct (Vars.state v); lia. }
  pose proof (@tokenizeLoop_mono _ _ _ _ _ H
                (Nat.le_max_l n (tokenizeBound input))) as H1.
  pose proof (@tokenizeLoop_mono _ _ _ _ _ H'
                (Nat.le_max_r n (tokenizeBound input))) as H2.
  congruence.
Qed.

Lemma jslength_app (a b : jsstring) :
  jslength (a ++ b) = (jslength a + jslength b)%Z.
Proof. unfold jslength. rewrite length_app. lia. Qed.

Lemma tokenizeTurn_plain (a b : jsstring) (c : char) u ds cur so cs :
  plain c = true ->
  tokenizeTurn (a ++ c :: b) (Vars.mk u ds cur InDescriptor (jslength a) so cs)
  = Continue (Vars.mk u ds (cur ++ [c]) InDescriptor (jslength a + 1) so cs).
Proof.
  unfold plain. intros H.
  apply andb_prop in H as [H H3]. apply andb_prop in H as [H1 H2].
  apply negb_true_iff in H1, H2, H3.
  unfold tokenizeTurn. simpl. rewrite charAt_app. simpl.
  change (code ",") with 44%N in H2. change (code "(") with 40%N in H3.
  now rewrite H1, H2, H3.
Qed.

Lemma tokenizesTo_plain (run : jsstring) :
  forall a b u ds cur so cs r,
    Forall (fun c => plain c = true) run ->
    tokenizesTo (a ++ run ++ b)
      (Vars.mk u ds (cur ++ run) InDescriptor (jslength (a ++ run)) so cs) r ->
    tokenizesTo (a ++ run ++ b)
      (Vars.mk u ds cur InDescriptor (jslength a) so cs) r.
Proof.
  induction run as [|c run IH]; intros a b u ds cur so cs r Hall H.
  - now rewrite !app_nil_r in H.
  - inversion Hall as [|? ? Hc Hrun]; subst.
    eapply tokenizesTo_Continue.
    + simpl. apply tokenizeTurn_plain, Hc.
    + replace (jslength a + 1)%Z with (jslength (a ++ [c]))
        by (rewrite jslength_app; reflexivity).
      replace (a ++ (c :: run) ++ b) with ((a ++ [c]) ++ run ++ b)
        by (rewrite <- app_assoc; reflexivity).
      apply IH; [assumption|].
      rewrite <- !app_assoc. simpl. exact H.
Qed.

Lemma classSpace_isASCIIWhitespace (c : char) :
  classSpace c = isASCIIWhitespace c.
Proof.
  unfold classSpace, isASCIIWhitespace.
  destruct (char_eqb c 9%N), (char_eqb c 10%N), (char_eqb c 12%N),
    (char_eqb c 13%N), (char_eqb c 32%N); reflexivity.
Qed.

Lemma classCommaOrSpace_cases (c : char) :
  classCommaOrSpace c = true ->
  isASCIIWhitespace c = true
  \/ (isASCIIWhitespace c = false /\ char_eqb c 44%N = true).
Proof.
  unfold classCommaOrSpace. rewrite classSpace_isASCIIWhitespace.
  change (code ",") with 44%N.
  destruct (isASCIIWhitespace c); [now left|]. rewrite orb_false_r.
  intros H. right. now split.
Qed.

(** The after-descriptor state on a run of separators that ends the
    input. *)
Lemma tokenizesTo_after (post : jsstring) :
  forall a u ds so cs,
    Forall (fun c => classCommaOrSpace c = true) post ->
    exists r,
      tokenizesTo (a ++ post)
        (Vars.mk u ds [] AfterDescriptor (jslength a) so cs) r
      /\ endsWith (a ++ post) u ds so cs r.
Proof.
  induction post as [|c post IH]; intros a u ds so cs Hall.
  - eexists. split.
    + apply tokenizesTo_DescriptorParser.
      unfold tokenizeTurn. simpl. rewrite charAt_app. reflexivity.
    + unfold endsWith. simpl. repeat split.
      exists a, []. repeat split. constructor.
  - inversion Hall as [|? ? Hc Hpost]; subst.
    destruct (classCommaOrSpace_cases c Hc) as [Hws | [Hws Hcomma]].
    + destruct (IH (a ++ [c]) u ds so cs Hpost) as (r & Hrun & Hend).
      rewrite <- app_assoc in Hrun, Hend. simpl in Hrun, Hend.
      exists r. split; [|assumption].
      eapply tokenizesTo_Continue; [|exact Hrun].
      unfold tokenizeTurn. simpl. rewrite charAt_app. simpl.
      rewrite Hws. unfold advance. simpl.
      now rewrite jslength_app.
    + eexists. split.
      * eapply tokenizesTo_Continue.
        { unfold tokenizeTurn. simpl. rewrite charAt_app. simpl.
          rewrite Hws. unfold advance. simpl.
          replace (jslength a - 1 + 1)%Z with (jslength a) by lia.
          reflexivity. }
        apply tokenizesTo_DescriptorParser.
        unfold tokenizeTurn. simpl. rewrite charAt_app. simpl.
        rewrite Hws, Hcomma. reflexivity.
      * unfold endsWith, pushCurrent. simpl. repeat split.
        exists (a ++ [c]), post. rewrite <- app_assoc, jslength_app.
        repeat split. assumption.
Qed.

(** The in-descriptor state, with a descriptor collected, at a run of
    separators that ends the input: the descriptor is pushed. *)
Lemma tokenizesTo_descriptor_end (post : jsstring) :
  forall a u ds x cur so cs,
    Forall (fun c => classCommaOrSpace c = true) post ->
    exists r,
      tokenizesTo (a ++ post)
        (Vars.mk u ds (x :: cur) InDescriptor (jslength a) so cs) r
      /\ endsWith (a ++ post) u (ds ++ [x :: cur]) so cs r.
Proof.
  intros a u ds x cur so cs Hall.
  destruct post as [|c post].
  - eexists. split.
    + apply tokenizesTo_DescriptorParser.
      unfold tokenizeTurn. simpl. rewrite charAt_app. reflexivity.
    + unfold endsWith, pushCurrent. simpl. repeat split.
      exists a, []. repeat split. constructor.
  - inversion Hall as [|? ? Hc Hpost]; subst.
    destruct (classCommaOrSpace_cases c Hc) as [Hws | [Hws Hcomma]].
    + destruct (@tokenizesTo_after post (a ++ [c]) u (ds ++ [x :: cur]) so cs Hpost)
        as (r & Hrun & Hend).
      rewrite <- app_assoc in Hrun, Hend. simpl in Hrun, Hend.
      exists r. split; [|assumption].
      eapply tokenizesTo_Continue; [|exact Hrun].
      unfold tokenizeTurn. simpl. rewrite charAt_app. simpl.
      rewrite Hws. unfold advance, pushCurrent. simpl.
      now rewrite jslength_app.
    + eexists. split.
      * apply tokenizesTo_DescriptorParser.
        unfold tokenizeTurn. simpl. rewrite charAt_app. simpl.
        rewrite Hws, Hcomma. reflexivity.
      * unfold endsWith, pushCurrent. simpl. repeat split.
        exists (a ++ [c]), post. rewrite <- app_assoc, jslength_app.
        repeat split. assumption.
Qed.

(** ** A single candidate with one descriptor *)

Lemma collectCharacters_run (p : char -> bool) (a run b : jsstring)
  u ds cur st so cs :
  Forall (fun c => p c = true) run ->
  takeWhile p b = [] ->
  collectCharacters p (a ++ run ++ b) (Vars.mk u ds cur st (jslength a) so cs)
  = (match run with [] => None | _ => Some run end,
     Vars.mk u ds cur st (jslength (a ++ run)) so cs).
Proof.
  intros Hrun Hb. unfold collectCharacters. simpl.
  rewrite substring_from_app, (@takeWhile_app p run b Hrun Hb).
  destruct run as [|c run]; [now rewrite app_nil_r|].
  unfold Vars.set_position. simpl. now rewrite jslength_app.
Qed.

Lemma takeWhile_head_false (p : char -> bool) (c : char) (s : jsstring) :
  p c = false -> takeWhile p (c :: s) = [].
Proof. intros H. simpl. now rewrite H. Qed.

Lemma plain_not_space (c : char) : plain c = true -> classSpace c = false.
Proof.
  unfold plain. rewrite classSpace_isASCIIWhitespace.
  destruct (isASCIIWhitespace c); [discriminate | reflexivity].
Qed.

Lemma parseSrcset_single (pre url ws dsc post : jsstring) :
  SingleCandidate pre url ws dsc post ->
  let input := pre ++ url ++ ws ++ dsc ++ post in
  let l := validateDescriptors [dsc] in
  parseSrcset input
  = Some (if pError l
          then Throw (Error (messageInvalidDescriptor input (Some dsc)))
          else Return [candidateOf url (jslength pre) l]).
Proof.
  intros [Hpre Hurl (u0 & ur & Eu & Hu0) Hlast Hws Hws0 Hdsc Hdsc0 Hpost].
  intros input0 l. remember input0 as input eqn:Einput. subst input0.
  assert (Hw0 : takeWhile classNotSpace (ws ++ dsc ++ post) = []).
  { destruct ws as [|w0 wr]; [congruence|].
    inversion Hws as [|? ? Hw0 _]; subst.
    apply takeWhile_head_false. unfold classNotSpace. now rewrite Hw0. }
  assert (Hd0 : takeWhile classSpace (dsc ++ post) = []).
  { destruct dsc as [|d0 dr]; [congruence|].
    inversion Hdsc as [|? ? Hd0 _]; subst.
    apply takeWhile_head_false, plain_not_space, Hd0. }
  (* the separators before the URL *)
  assert (E1 : snd (collectCharacters classCommaOrSpace input Vars.initial)
               = Vars.mk [] [] [] InDescriptor (jslength pre) 0 []).
  { rewrite Einput.
    pose proof (@collectCharacters_run classCommaOrSpace [] pre
                  (url ++ ws ++ dsc ++ post) [] [] [] InDescriptor 0%Z []
                  Hpre) as H.
    cbn [app] in H. change (jslength []) with 0%Z in H.
    unfold Vars.initial. rewrite H; [reflexivity|].
    rewrite Eu. now apply takeWhile_head_false. }
  assert (Hlt : (jslength pre >=? jslength input)%Z = false).
  { rewrite Z.geb_leb. apply Z.leb_gt. rewrite Einput, Eu.
    rewrite !jslength_app. unfold jslength. cbn [List.length]. lia. }
  (* the URL *)
  assert (E2 : collectCharacters classNotSpace input
                 (Vars.mk [] [] [] InDescriptor (jslength pre) (jslength pre) [])
               = (Some url,
                  Vars.mk [] [] [] InDescriptor (jslength (pre ++ url))
                    (jslength pre) [])).
  { rewrite Einput.
    rewrite (@collectCharacters_run classNotSpace pre url (ws ++ dsc ++ post));
      try assumption.
    rewrite Eu. reflexivity. }
  (* the whitespace before the descriptor *)
  assert (E3 : snd (collectCharacters classSpace input
                      (Vars.mk url [] [] InDescriptor (jslength (pre ++ url))
                         (jslength pre) []))
               = Vars.mk url [] [] InDescriptor
                   (jslength ((pre ++ url) ++ ws)) (jslength pre) []).
  { rewrite Einput.
    replace (pre ++ url ++ ws ++ dsc ++ post)
      with ((pre ++ url) ++ ws ++ dsc ++ post) by now rewrite <- app_assoc.
    rewrite (@collectCharacters_run classSpace (pre ++ url) ws (dsc ++ post));
      try assumption.
    reflexivity. }
  (* the tokenizer's loop *)
  assert (E4 : exists r,
             tokenizeLoop (tokenizeBound input) input
               (Vars.mk url [] [] InDescriptor
                  (jslength ((pre ++ url) ++ ws)) (jslength pre) [])
             = Some r
             /\ endsWith input url [dsc] (jslength pre) [] r).
  { destruct dsc as [|d0 dr]; [congruence|].
    set (a := (pre ++ url) ++ ws).
    assert (Ea : input = a ++ (d0 :: dr) ++ post)
      by (rewrite Einput; unfold a; now rewrite <- !app_assoc).
    destruct (@tokenizesTo_descriptor_end post (a ++ d0 :: dr) url []
                d0 dr (jslength pre) [] Hpost) as (r & Hrun & Hend).
    rewrite <- app_assoc, <- Ea in Hend.
    rewrite <- app_assoc in Hrun.
    apply (@tokenizesTo_plain (d0 :: dr) a post url [] [] (jslength pre) []
             r Hdsc) in Hrun.
    rewrite <- Ea in Hrun. apply tokenizesTo_bound in Hrun.
    exists r. split; assumption. }
  destruct E4 as (r & Hrun & (Hru & Hrd & Hrs & Hrc & a' & post' & Ein & Hrp & Hpost')).
  (* the first turn of the splitting loop *)
  assert (Hdesc : desc l = Some dsc) by apply (validateDescriptors_desc [] dsc).
  set (v' := Vars.set_candidates [candidateOf url (jslength pre) l] r).
  assert (Eturn : splittingTurn (tokenizeBound input) input Vars.initial
                  = Some (if pError l
                          then Complete
                                 (Throw (Error (messageInvalidDescriptor input
                                                  (Some dsc))))
                          else SplittingLoop v')).
  { unfold splittingTurn.
    unfold regexLeadingCommasOrSpaces, regexLeadingNotSpaces.
    rewrite E1. cbn [Vars.position]. rewrite Hlt.
    unfold Vars.set_startOffset.
    cbn [Vars.url Vars.descriptors Vars.currentDescriptor Vars.state
         Vars.position Vars.candidates].
    rewrite E2, Hlast. unfold tokenize, tokenizeEnter, regexLeadingSpaces.
    unfold Vars.set_descriptors, Vars.set_url.
    cbn [Vars.url Vars.descriptors Vars.currentDescriptor Vars.state
         Vars.position Vars.startOffset Vars.candidates].
    rewrite E3. unfold Vars.set_currentDescriptor, Vars.set_state.
    cbn [Vars.url Vars.descriptors Vars.currentDescriptor Vars.state
         Vars.position Vars.startOffset Vars.candidates].
    rewrite Hrun, parseDescriptors_spec. cbn zeta.
    rewrite Hrd, Hru, Hrs, Hrc. cbn [app]. fold l.
    destruct (pError l); [now rewrite Hdesc | reflexivity]. }
  unfold parseSrcset.
  assert (Hfuel : exists k, splittingBound input = S (S k)).
  { unfold splittingBound. rewrite Einput, Eu, !length_app.
    cbn [List.length].
    exists (List.length pre
            + (List.length ur
               + (List.length ws + (List.length dsc + List.length post))))%nat.
    lia. }
  destruct Hfuel as [k ->].
  cbn [splittingLoop]. rewrite Eturn.
  destruct (pError l) eqn:Hp; [reflexivity|].
  (* the second turn *)
  assert (Hpos : (0 <= Vars.position v')%Z)
    by (unfold v'; simpl; rewrite Hrp; unfold jslength; lia).
  destruct (@splittingTurn_spec (tokenizeBound input) input v' Hpos (le_n _))
    as [(_ & ->) | (Hne & _)].
  - reflexivity.
  - exfalso. apply Hne. unfold v'. simpl. rewrite Hrp, Ein.
    rewrite substring_from_app. now apply dropWhile_all.
Qed.

(** ** The code units of a string a pattern matches *)

Lemma isVoid_nullable (r : regex) : isVoid r = true -> nullable r = false.
Proof.
  induction r; simpl; intros H; try discriminate; try reflexivity.
  - apply andb_prop in H as [H1 H2]. now rewrite IHr1, IHr2.
  - apply orb_prop in H as [H | H].
    + now rewrite IHr1.
    + rewrite (IHr2 H). apply andb_false_r.
Qed.

Lemma isVoid_deriv (c : char) (r : regex) :
  isVoid r = true -> isVoid (deriv c r) = true.
Proof.
  induction r; simpl; intros H; try discriminate; try reflexivity.
  - apply andb_prop in H as [H1 H2]. now rewrite IHr1, IHr2.
  - apply orb_prop in H as [H | H].
    + rewrite (isVoid_nullable _ H). simpl. now rewrite IHr1.
    + destruct (nullable r1); simpl; rewrite ?IHr2, ?H by assumption;
        rewrite ?orb_true_r; reflexivity.
Qed.

Lemma isVoid_test (s : jsstring) :
  forall r, isVoid r = true -> Regex.test r s = false.
Proof.
  induction s as [|c s IH]; intros r H; simpl.
  - now apply isVoid_nullable.
  - apply IH, isVoid_deriv, H.
Qed.

Lemma deriv_outside_alphabet (c : char) (r : regex) :
  alphabet r c = false -> isVoid (deriv c r) = true.
Proof.
  induction r; simpl; intros H; try reflexivity.
  - now rewrite H.
  - apply orb_false_elim in H as [H1 H2]. now rewrite IHr1, IHr2.
  - apply orb_false_elim in H as [H1 H2].
    destruct (nullable r1); simpl; now rewrite IHr1, ?IHr2.
  - now rewrite IHr.
Qed.

Lemma alphabet_deriv (c x : char) (r : regex) :
  alphabet (deriv c r) x = true -> alphabet r x = true.
Proof.
  induction r; simpl; intros H; try discriminate.
  - destruct (b c); discriminate.
  - apply orb_prop in H as [H | H]; [rewrite IHr1 | rewrite IHr2];
      auto using orb_true_r.
  - destruct (nullable r1); simpl in H.
    + apply orb_prop in H as [H | H].
      * apply orb_prop in H as [H | H]; [rewrite IHr1 | rewrite H];
          auto using orb_true_r.
      * rewrite (IHr2 H). apply orb_true_r.
    + apply orb_prop in H as [H | H]; [rewrite IHr1 | rewrite H];
        auto using orb_true_r.
  - apply orb_prop in H as [H | H]; auto.
Qed.

(** A string an anchored pattern matches is made of code units of its
    classes. *)
Lemma test_alphabet (s : jsstring) :
  forall r, Regex.test r s = true -> Forall (fun c => alphabet r c = true) s.
Proof.
  induction s as [|c s IH]; intros r H; constructor.
  - destruct (alphabet r c) eqn:E; [reflexivity|].
    simpl in H. now rewrite (isVoid_test s _ (deriv_outside_alphabet c r E)) in H.
  - simpl in H. apply IH in H.
    eapply Forall_impl; [|exact H]. intros x. apply alphabet_deriv.
Qed.

Lemma classDigit_plain (c : char) : classDigit c = true -> plain c = true.
Proof.
  unfold classDigit, plain, isASCIIWhitespace, char_eqb. intros H.
  apply andb_prop in H as [H1 H2].
  apply N.leb_le in H1, H2.
  repeat match goal with
  | |- context [N.eqb c ?k] =>
      let E := fresh in
      destruct (N.eqb_spec c k) as [E|E]; [exfalso; subst c; simpl in *; lia|]
  end.
  reflexivity.
Qed.

Lemma regexNonNegativeInteger_plain (value : jsstring) :
  Regex.test regexNonNegativeInteger value = true ->
  Forall (fun c => plain c = true) value.
Proof.
  intros H. apply test_alphabet in H.
  eapply Forall_impl; [|exact H]. intros c. simpl.
  rewrite orb_diag. apply classDigit_plain.
Qed.

Lemma regexFloatingPoint_plain (value : jsstring) :
  Regex.test regexFloatingPoint value = true ->
  Forall (fun c => plain c = true) value.
Proof.
  intros H. apply test_alphabet in H.
  eapply Forall_impl; [|exact H]. intros c. simpl.
  unfold classE, classSign, char_eqb.
  intros Hc.
  repeat match type of Hc with
  | (_ || _) = true => apply orb_prop in Hc as [Hc | Hc]
  | false = true => discriminate
  end;
  try (now apply classDigit_plain);
  try (apply N.eqb_eq in Hc; subst c; reflexivity);
  destruct c as [|q]; try discriminate;
  apply Pos.eqb_eq in Hc; subst q; reflexivity.
Qed.

(** ** A single descriptor *)

(** The locals after the loop over a list with the one descriptor
    [value ++ "x"], for a valid floating-point number [value]. *)
Lemma validateDescriptors_density (value : jsstring) :
  Regex.test regexFloatingPoint value = true ->
  validateDescriptors [value ++ str "x"]
  = if lt (parseFloat value) zero
    then {| pError := true; w := None; d := None; h := None;
            desc := Some (value ++ str "x") |}
    else {| pError := false; w := None; d := Some (parseFloat value);
            h := None; desc := Some (value ++ str "x") |}.
Proof.
  intros H. unfold validateDescriptors. cbn [fold_left].
  unfold descriptorStep. change (str "x") with [code "x"].
  rewrite lastCharOf_snoc, substring_snoc, H.
  change (optCharIs (Some (code "x")) "w") with false.
  change (optCharIs (Some (code "x")) "x") with true.
  rewrite andb_false_r. cbn [andb].
  destruct (lt (parseFloat value) zero); reflexivity.
Qed.

(** The same for [value ++ "w"] and [value ++ "h"], for a valid
    non-negative integer [value]. *)
Lemma validateDescriptors_width (value : jsstring) :
  Regex.test regexNonNegativeInteger value = true ->
  validateDescriptors [value ++ str "w"]
  = if strictEq (parseInt value) zero
    then {| pError := true; w := None; d := None; h := None;
            desc := Some (value ++ str "w") |}
    else {| pError := false; w := Some (parseInt value); d := None;
            h := None; desc := Some (value ++ str "w") |}.
Proof.
  intros H. unfold validateDescriptors. cbn [fold_left].
  unfold descriptorStep. change (str "w") with [code "w"].
  rewrite lastCharOf_snoc, substring_snoc, H.
  change (optCharIs (Some (code "w")) "w") with true. cbn [andb].
  destruct (strictEq (parseInt value) zero); reflexivity.
Qed.

Lemma validateDescriptors_height (value : jsstring) :
  Regex.test regexNonNegativeInteger value = true ->
  validateDescriptors [value ++ str "h"]
  = if strictEq (parseInt value) zero
    then {| pError := true; w := None; d := None; h := None;
            desc := Some (value ++ str "h") |}
    else {| pError := false; w := None; d := None;
            h := Some (parseInt value); desc := Some (value ++ str "h") |}.
Proof.
  intros H. unfold validateDescriptors. cbn [fold_left].
  unfold descriptorStep. change (str "h") with [code "h"].
  rewrite lastCharOf_snoc, substring_snoc, H.
  change (optCharIs (Some (code "h")) "w") with false.
  change (optCharIs (Some (code "h")) "x") with false.
  change (optCharIs (Some (code "h")) "h") with true.
  rewrite !andb_false_r. cbn [andb].
  destruct (strictEq (parseInt value) zero); reflexivity.
Qed.

Lemma SingleCandidate_bare (url dsc : jsstring) :
  plainUrl url ->
  Forall (fun c => plain c = true) dsc -> dsc <> [] ->
  SingleCandidate [] url (str " ") dsc [].
Proof.
  intros (H1 & H2 & H3) Hd Hne.
  constructor; try assumption; try constructor; try reflexivity;
    try constructor; discriminate.
Qed.

Lemma plain_snoc (value : jsstring) (u : char) :
  Forall (fun c => plain c = true) value -> plain u = true ->
  Forall (fun c => plain c = true) (value ++ [u]) /\ value ++ [u] <> [].
Proof.
  intros Hv Hu. split.
  - apply Forall_app. split; [assumption | now constructor].
  - now destruct value.
Qed.

Lemma parseSrcset_bare (url dsc : jsstring) :
  plainUrl url ->
  Forall (fun c => plain c = true) dsc -> dsc <> [] ->
  let input := url ++ str " " ++ dsc in
  let l := validateDescriptors [dsc] in
  parseSrcset input
  = Some (if pError l
          then Throw (Error (messageInvalidDescriptor input (Some dsc)))
          else Return [candidateOf url 0 l]).
Proof.
  intros Hu Hd Hne.
  pose proof (parseSrcset_single (SingleCandidate_bare Hu Hd Hne)) as H.
  cbn [app] in H. rewrite app_nil_r in H. exact H.
Qed.

(** ** A descriptor that sets the error flag, among others *)

Lemma validateDescriptors_In_pError (x : jsstring) (ds : list jsstring) :
  (forall l, pError (descriptorStep l x) = true) ->
  In x ds -> pError (validateDescriptors ds) = true.
Proof.
  intros Hx Hin. apply in_split in Hin as (ds1 & ds2 & ->).
  unfold validateDescriptors. rewrite fold_left_app. cbn [fold_left].
  apply fold_descriptorStep_pError, Hx.
Qed.

Lemma descriptorStep_zero_integer (l : DescriptorVars) (num : jsstring)
  (u : char) :
  u = code "w" \/ u = code "h" ->
  Regex.test regexNonNegativeInteger num = true ->
  strictEq (parseInt num) zero = true ->
  pError (descriptorStep l (num ++ [u])) = true.
Proof.
  intros Hu Hre H0. unfold descriptorStep.
  rewrite lastCharOf_snoc, substring_snoc, Hre, H0.
  destruct Hu; subst u.
  - change (optCharIs (Some (code "w")) "w") with true. cbn [andb].
    destruct (truthyOpt _ || truthyOpt _); reflexivity.
  - change (optCharIs (Some (code "h")) "w") with false.
    change (optCharIs (Some (code "h")) "x") with false.
    change (optCharIs (Some (code "h")) "h") with true.
    rewrite !andb_false_r. cbn [andb].
    destruct (truthyOpt _ || truthyOpt _); reflexivity.
Qed.

Lemma descriptorStep_negative_density (l : DescriptorVars) (num : jsstring) :
  Regex.test regexFloatingPoint num = true ->
  lt (parseFloat num) zero = true ->
  pError (descriptorStep l (num ++ str "x")) = true.
Proof.
  intros Hre H0. unfold descriptorStep. change (str "x") with [code "x"].
  rewrite lastCharOf_snoc, substring_snoc, Hre, H0.
  change (optCharIs (Some (code "x")) "w") with false.
  change (optCharIs (Some (code "x")) "x") with true.
  rewrite andb_false_r. cbn [andb].
  destruct (truthyOpt _ || truthyOpt _ || truthyOpt _); reflexivity.
Qed.

Lemma parseDescriptors_pError (input : jsstring) (v : Vars.t) :
  pError (validateDescriptors (Vars.descriptors v)) = true ->
  exists x,
    In x (Vars.descriptors v)
    /\ parseDescriptors input v
       = inr (Error (messageInvalidDescriptor input (Some x))).
Proof.
  intros H. rewrite parseDescriptors_spec. cbv zeta. rewrite H.
  destruct (validateDescriptors_pError_desc _ H) as (x & -> & Hin).
  now exists x.
Qed.

(** ** Zero and negative magnitudes *)

(** C4: a width or height descriptor whose integer is 0 makes
    [parseDescriptors] throw the invalid-descriptor error whatever the other
    descriptors of the candidate are, and so does a density descriptor whose
    number is less than zero. For an input made of a URL and one descriptor:
    a width or height of 0 makes [parseSrcset] throw that error, as on
    "data:,a 0w" and "data:,a 0h"; a density descriptor makes it throw
    exactly when the number parsed is less than zero, as on "data:,a -1x",
    and otherwise the call returns one candidate. "0" parses as +0 and "-0"
    as -0, which is not less than zero, and "data:,a 0x" and "data:,a -0x"
    return one candidate. *)
Theorem C4_zero_width_height_and_negative_density_throw :
  (forall input v num u,
      u = code "w" \/ u = code "h" ->
      Regex.test regexNonNegativeInteger num = true ->
      strictEq (parseInt num) zero = true ->
      In (num ++ [u]) (Vars.descriptors v) ->
      exists x,
        parseDescriptors input v
        = inr (Error (messageInvalidDescriptor input (Some x))))
  /\ (forall input v num,
         Regex.test regexFloatingPoint num = true ->
         lt (parseFloat num) zero = true ->
         In (num ++ str "x") (Vars.descriptors v) ->
         exists x,
           parseDescriptors input v
           = inr (Error (messageInvalidDescriptor input (Some x))))
  /\ (forall url num u,
      plainUrl url ->
      u = code "w" \/ u = code "h" ->
      Regex.test regexNonNegativeInteger num = true ->
      strictEq (parseInt num) zero = true ->
      let input := url ++ str " " ++ num ++ [u] in
      parseSrcset input
      = Some (Throw (Error
           (messageInvalidDescriptor input (Some (num ++ [u]))))))
  /\ parseSrcset (str "data:,a 0w")
     = Some (Throw (Error
          (messageInvalidDescriptor (str "data:,a 0w") (Some (str "0w")))))
  /\ parseSrcset (str "data:,a 0h")
     = Some (Throw (Error
          (messageInvalidDescriptor (str "data:,a 0h") (Some (str "0h")))))
  /\ (forall url num,
         plainUrl url ->
         Regex.test regexFloatingPoint num = true ->
         let input := url ++ str " " ++ num ++ str "x" in
         parseSrcset input
         = Some (if lt (parseFloat num) zero
                 then Throw (Error
                        (messageInvalidDescriptor input
                           (Some (num ++ str "x"))))
                 else Return
                        [ {| source := {| value := url; startOffset := 0 |};
                             width := None;
                             density := fieldOf (Some (parseFloat num));
                             height := None |} ]))
  /\ parseFloat (str "0") = S754_zero false
  /\ parseFloat (str "-0") = S754_zero true
  /\ lt (parseFloat (str "-0")) zero = false
  /\ parseSrcset (str "data:,a 0x")
     = Some (Return
          [ {| source := {| value := str "data:,a"; startOffset := 0 |};
               width := None; density := None; height := None |} ])
  /\ parseSrcset (str "data:,a -0x")
     = Some (Return
          [ {| source := {| value := str "data:,a"; startOffset := 0 |};
               width := None; density := None; height := None |} ])
  /\ lt (parseFloat (str "-1")) zero = true
  /\ parseSrcset (str "data:,a -1x")
     = Some (Throw (Error
          (messageInvalidDescriptor (str "data:,a -1x") (Some (str "-1x"))))).
Proof.
  split.
  { intros input v num u Hu Hre H0 Hin.
    destruct (@parseDescriptors_pError input v) as (x & _ & H);
      [|now exists x].
    eapply validateDescriptors_In_pError; [|exact Hin].
    intros l. now apply descriptorStep_zero_integer. }
  split.
  { intros input v num Hre H0 Hin.
    destruct (@parseDescriptors_pError input v) as (x & _ & H);
      [|now exists x].
    eapply validateDescriptors_In_pError; [|exact Hin].
    intros l. now apply descriptorStep_negative_density. }
  split; [|split; [vm_compute; reflexivity|]].
  { intros url num u Hu Hwh Hre H0 input.
    assert (Hplain : plain u = true) by (destruct Hwh; subst u; reflexivity).
    destruct (@plain_snoc num u (regexNonNegativeInteger_plain _ Hre) Hplain)
      as [Hd Hne].
    pose proof (parseSrcset_bare Hu Hd Hne) as H. cbv zeta in H.
    fold input in H. rewrite H.
    destruct Hwh; subst u.
    - change [code "w"] with (str "w").
      now rewrite (validateDescriptors_width _ Hre), H0.
    - change [code "h"] with (str "h").
      now rewrite (validateDescriptors_height _ Hre), H0. }
  split; [vm_compute; reflexivity|].
  split; [|repeat split; vm_compute; reflexivity].
  intros url num Hu Hre input.
  assert (Hplain : plain (code "x") = true) by reflexivity.
  destruct (@plain_snoc num (code "x") (regexFloatingPoint_plain _ Hre) Hplain)
    as [Hd Hne].
  pose proof (parseSrcset_bare Hu Hd Hne) as H. cbv zeta in H.
  change [code "x"] with (str "x") in H. fold input in H. rewrite H.
  rewrite (validateDescriptors_density _ Hre).
  destruct (lt (parseFloat num) zero); reflexivity.
Qed.

Lemma plainUrl_data_a : plainUrl (str "data:,a").
Proof.
  repeat split.
  - repeat (apply Forall_cons; [reflexivity|]). apply Forall_nil.
  - eexists _, _. split; reflexivity.
Qed.

(** C4 at "data:,a 00w". *)
Lemma C4_zero_width_witness :
  plainUrl (str "data:,a")
  /\ (code "w" = code "w" \/ code "w" = code "h")
  /\ Regex.test regexNonNegativeInteger (str "00") = true
  /\ strictEq (parseInt (str "00")) zero = true
  /\ parseSrcset (str "data:,a 00w")
     = Some (Throw (Error
          (messageInvalidDescriptor (str "data:,a 00w") (Some (str "00w"))))).
Proof.
  split; [exact plainUrl_data_a|].
  split; [left; reflexivity|].
  split; [reflexivity|].
  split; [reflexivity|].
  exact (proj1 (proj2 (proj2 C4_zero_width_height_and_negative_density_throw))
           (str "data:,a") (str "00") (code "w") plainUrl_data_a
           (or_introl eq_refl) eq_refl eq_refl).
Defined.

(** ** Separators around a candidate *)

(** C9 as stated fails: the candidate of " , ,data:,a 1x, " has the start
    offset 4 and the candidate of "data:,a 1x" has 0, so the two calls do
    not return the same candidate. *)
Lemma C9_candidates_differ_in_startOffset :
  parseSrcset (str " , ,data:,a 1x, ") <> parseSrcset (str "data:,a 1x").
Proof. vm_compute. discriminate. Qed.

(** C9, amended: separators before and after a URL with one valid
    descriptor change [source.startOffset] and nothing else. With the
    separators the call returns the one candidate it returns without them,
    except that its start offset is the length of the leading run instead of
    0. "data:,a 1x" gives the URL "data:,a" at offset 0 with density 1, and
    " , ,data:,a 1x, " gives the same URL and density at offset 4. *)
Theorem C9_separators_around_change_only_startOffset :
  (forall pre url ws dsc post,
      SingleCandidate pre url ws dsc post ->
      pError (validateDescriptors [dsc]) = false ->
      parseSrcset (url ++ ws ++ dsc)
      = Some (Return [candidateOf url 0 (validateDescriptors [dsc])])
      /\ parseSrcset (pre ++ url ++ ws ++ dsc ++ post)
         = Some (Return
              [candidateOf url (jslength pre) (validateDescriptors [dsc])]))
  /\ parseSrcset (str "data:,a 1x")
     = Some (Return
          [ {| source := {| value := str "data:,a"; startOffset := 0 |};
               width := None; density := Some one; height := None |} ])
  /\ parseSrcset (str " , ,data:,a 1x, ")
     = Some (Return
          [ {| source := {| value := str "data:,a"; startOffset := 4 |};
               width := None; density := Some one; height := None |} ]).
Proof.
  split; [|split; vm_compute; reflexivity].
  intros pre url ws dsc post Hsc Hok. split.
  - assert (Hbare : SingleCandidate [] url ws dsc []).
    { destruct Hsc. constructor; try assumption; constructor. }
    pose proof (parseSrcset_single Hbare) as H. cbv zeta in H.
    rewrite Hok in H. cbn [app] in H. now rewrite app_nil_r in H.
  - pose proof (parseSrcset_single Hsc) as H. cbv zeta in H.
    now rewrite Hok in H.
Qed.

Lemma SingleCandidate_example :
  SingleCandidate (str " , ,") (str "data:,a") (str " ") (str "1x") (str ", ").
Proof.
  constructor;
    try (repeat (apply Forall_cons; [reflexivity|]); apply Forall_nil);
    try reflexivity; try discriminate.
  eexists _, _. split; reflexivity.
Qed.

(** C9 at the two inputs of the claim. *)
Lemma C9_separators_around_witness :
  SingleCandidate (str " , ,") (str "data:,a") (str " ") (str "1x") (str ", ")
  /\ pError (validateDescriptors [str "1x"]) = false
  /\ parseSrcset (str "data:,a" ++ str " " ++ str "1x")
     = Some (Return
          [candidateOf (str "data:,a") 0 (validateDescriptors [str "1x"])])
  /\ parseSrcset
       (str " , ," ++ str "data:,a" ++ str " " ++ str "1x" ++ str ", ")
     = Some (Return
          [candidateOf (str "data:,a") 4 (validateDescriptors [str "1x"])]).
Proof.
  split; [exact SingleCandidate_example|].
  split; [reflexivity|].
  exact (proj1 C9_separators_around_change_only_startOffset
           _ _ _ _ _ SingleCandidate_example eq_refl).
Defined.

(** * Further properties of the functions of [src/index.js] *)

(** ** The classes of whitespace *)

(** X1: the function [isASCIIWhitespace] of the tokenizer and the character
    class of the three patterns of the splitting loop accept the same code
    units: tab, line feed, form feed, carriage return and space. A comma is
    the one separator that is not whitespace; U+000B and U+00A0 are neither,
    so they are text of a URL or of a descriptor. *)
Theorem X1_whitespace_of_tokenizer_and_patterns_agree (c : char) :
  (isASCIIWhitespace c = true <-> In c [9; 10; 12; 13; 32]%N)
  /\ regexLeadingSpaces c = isASCIIWhitespace c
  /\ regexLeadingNotSpaces c = negb (isASCIIWhitespace c)
  /\ (regexLeadingCommasOrSpaces c = true
      <-> c = code "," \/ isASCIIWhitespace c = true)
  /\ isASCIIWhitespace (code ",") = false
  /\ regexLeadingNotSpaces 11%N = true
  /\ regexLeadingNotSpaces 160%N = true.
Proof.
  split; [|split; [apply classSpace_isASCIIWhitespace|split]].
  - unfold isASCIIWhitespace, char_eqb. simpl. split.
    + intros H.
      repeat (apply orb_prop in H as [H | H]);
        apply N.eqb_eq in H; subst c; tauto.
    + intros [<-|[<-|[<-|[<-|[<-|[]]]]]]; reflexivity.
  - unfold regexLeadingNotSpaces, classNotSpace.
    now rewrite classSpace_isASCIIWhitespace.
  - split; [|repeat split].
    unfold regexLeadingCommasOrSpaces, classCommaOrSpace.
    rewrite classSpace_isASCIIWhitespace. unfold char_eqb. split.
    + intros H. apply orb_prop in H as [H | H]; [left | now right].
      now apply N.eqb_eq in H.
    + intros [-> | ->]; [reflexivity | apply orb_true_r].
Qed.

(** ** collectCharacters *)

Lemma charAt_substring_from (input : jsstring) (n : Z) :
  (0 <= n)%Z ->
  charAt input n = nth_error (substring_from input n) 0.
Proof.
  intros Hn. unfold charAt, substring_from.
  destruct (Z.ltb_spec n 0); [lia|].
  rewrite nth_error_skipn. f_equal. lia.
Qed.

Lemma takeWhile_Forall (p : char -> bool) (s : jsstring) :
  Forall (fun c => p c = true) (takeWhile p s).
Proof.
  induction s as [|c r IH]; simpl; [constructor|].
  destruct (p c) eqn:E; constructor; assumption.
Qed.

Lemma takeWhile_nil_head (p : char -> bool) (s : jsstring) :
  takeWhile p s = [] <-> optCharTest p (nth_error s 0) = false.
Proof.
  destruct s as [|c r]; simpl; [tauto|].
  destruct (p c); split; congruence.
Qed.

Lemma substring_of_prefix (input u t : jsstring) (n : Z) :
  (0 <= n)%Z ->
  substring_from input n = u ++ t ->
  u = substring input n (n + jslength u).
Proof.
  unfold substring_from, substring, jslength. intros Hn E.
  rewrite Z2Nat.inj_add, Nat2Z.id by lia.
  replace (Z.to_nat n + List.length u - Z.to_nat n)%nat
    with (List.length u) by lia.
  now rewrite E, firstn_app, Nat.sub_diag, firstn_all, app_nil_r.
Qed.

Lemma collectCharacters_frame (p : char -> bool) (input : jsstring)
  (v : Vars.t) :
  let v' := snd (collectCharacters p input v) in
  Vars.currentDescriptor v' = Vars.currentDescriptor v
  /\ Vars.state v' = Vars.state v.
Proof.
  unfold collectCharacters.
  destruct (takeWhile p (substring_from input (Vars.position v)));
    split; reflexivity.
Qed.

(** X2: [collectCharacters] returns [undefined] and changes nothing exactly
    when the code unit at [position] is not in the class, the end of the
    input included. Otherwise it returns the longest run of the class that
    starts at [position], which is not empty and is the substring of the
    input between the old and the new [position]. In both cases the code
    unit at the new [position] is not in the class, [position] does not move
    back, and no other variable changes. *)
Theorem X2_collectCharacters_takes_longest_run (regEx : char -> bool)
  (input : jsstring) (v : Vars.t) :
  (0 <= Vars.position v)%Z ->
  let r := fst (collectCharacters regEx input v) in
  let v' := snd (collectCharacters regEx input v) in
  (r = None <-> optCharTest regEx (charAt input (Vars.position v)) = false)
  /\ (r = None -> v' = v)
  /\ (forall chars,
         r = Some chars ->
         chars <> []
         /\ Forall (fun c => regEx c = true) chars
         /\ chars = substring input (Vars.position v) (Vars.position v')
         /\ Vars.position v' = (Vars.position v + jslength chars)%Z)
  /\ optCharTest regEx (charAt input (Vars.position v')) = false
  /\ (Vars.position v <= Vars.position v')%Z
  /\ Vars.url v' = Vars.url v
  /\ Vars.descriptors v' = Vars.descriptors v
  /\ Vars.currentDescriptor v' = Vars.currentDescriptor v
  /\ Vars.state v' = Vars.state v
  /\ Vars.startOffset v' = Vars.startOffset v
  /\ Vars.candidates v' = Vars.candidates v.
Proof.
  intros Hpos r v'.
  destruct (collectCharacters_spec regEx input v Hpos)
    as (Hf & Hp & Hr & Hu & Hd & Hs & Hc).
  fold r in Hf. fold v' in Hp, Hr, Hu, Hd, Hs, Hc.
  set (here := substring_from input (Vars.position v)) in *.
  set (chars := takeWhile regEx here) in *.
  assert (Hp' : (0 <= Vars.position v')%Z) by (unfold jslength in Hp; lia).
  split; [|split; [|split; [|split; [|split]]]].
  - rewrite (charAt_substring_from _ Hpos). fold here.
    rewrite <- takeWhile_nil_head. fold chars. rewrite Hf.
    destruct chars; split; congruence.
  - intros E. subst r v'. unfold collectCharacters in *. fold here in E |- *.
    fold chars in E |- *. now destruct chars.
  - intros cs E. rewrite Hf in E.
    destruct chars as [|c0 r0] eqn:Ech; [discriminate|].
    injection E as <-. rewrite <- Ech.
    split; [rewrite Ech; discriminate|].
    split; [apply takeWhile_Forall|].
    split; [|rewrite Hp, Ech; reflexivity].
    rewrite Hp, Ech, <- Ech.
    apply (@substring_of_prefix input chars (dropWhile regEx here) _ Hpos).
    symmetry. apply takeWhile_dropWhile.
  - rewrite (charAt_substring_from _ Hp'), Hr.
    apply takeWhile_nil_head, takeWhile_dropWhile_nil.
  - unfold jslength in Hp. lia.
  - subst v'. unfold collectCharacters. fold here. fold chars.
    destruct chars; repeat split; assumption || reflexivity.
Qed.

(** X2 at position 3 of "a b  ,c", for the class of commas and spaces. *)
Lemma X2_collectCharacters_witness :
  let input := str "a b  ,c" in
  let v := Vars.mk [] [] [] InDescriptor 3 0 [] in
  (0 <= Vars.position v)%Z
  /\ fst (collectCharacters regexLeadingCommasOrSpaces input v)
     = Some (str "  ,")
  /\ Vars.position (snd (collectCharacters regexLeadingCommasOrSpaces input v))
     = 6%Z
  /\ str "  ," = substring input 3 6.
Proof.
  assert (H0 : (0 <= 3)%Z) by lia.
  pose proof (X2_collectCharacters_takes_longest_run
                regexLeadingCommasOrSpaces (str "a b  ,c")
                (Vars.mk [] [] [] InDescriptor 3 0 []) H0) as H.
  cbv zeta in H. destruct H as (_ & _ & H & _).
  destruct (H (str "  ,") eq_refl) as (_ & _ & Hsub & Hp).
  split; [exact H0|]. split; [reflexivity|]. split; [exact Hp | exact Hsub].
Defined.

(** ** The turns of the splitting loop, case by case *)

Lemma endsWithComma_last (s : jsstring) (c : char) :
  endsWithComma (s ++ [c]) = char_eqb c (code ",").
Proof. unfold endsWithComma. now rewrite lastCharOf_snoc. Qed.

(** A turn of the splitting loop either finds only separators and completes
    the call, or collects a URL at [so]: one that ends with a comma goes to
    the descriptor parser with no descriptor, any other goes through the
    tokenizer, entered in the state in-descriptor at or after the end of the
    URL. *)
Lemma splittingTurn_cases (tokenFuel : nat) (input : jsstring) (v : Vars.t) :
  (0 <= Vars.position v)%Z ->
  (tokenizeBound input <= tokenFuel)%nat ->
  let here := substring_from input (Vars.position v) in
  let rest := dropWhile classCommaOrSpace here in
  let so := (Vars.position v + jslength (takeWhile classCommaOrSpace here))%Z in
  let chars := takeWhile classNotSpace rest in
  (rest = []
   /\ splittingTurn tokenFuel input v
      = Some (Complete
                match Vars.candidates v with
                | [] => Throw (Error messageNoCandidates)
                | cs => Return cs
                end))
  \/ (rest <> [] /\ chars <> []
      /\ substring_from input so = rest
      /\ ((endsWithComma chars = true
           /\ splittingTurn tokenFuel input v
              = Some (afterDescriptors input
                        (Vars.mk (replaceTrailingCommas chars) []
                           (Vars.currentDescriptor v) (Vars.state v)
                           (so + jslength chars) so (Vars.candidates v))))
          \/ (endsWithComma chars = false
              /\ exists p v5,
                  (so + jslength chars <= p)%Z
                  /\ tokenizeLoop tokenFuel input
                       (Vars.mk chars [] [] InDescriptor p so (Vars.candidates v))
                     = Some v5
                  /\ splittingTurn tokenFuel input v
                     = Some (afterDescriptors input v5)))).
Proof.
  intros Hpos Hfuel here rest so chars.
  unfold splittingTurn.
  destruct (collectCharacters_spec classCommaOrSpace input v Hpos)
    as (_ & Hp1 & Hr1 & Hu1 & Hd1 & Hs1 & Hc1).
  fold here in Hp1, Hr1. fold so in Hp1. fold rest in Hr1.
  unfold regexLeadingCommasOrSpaces.
  destruct (collectCharacters_frame classCommaOrSpace input v)
    as (Hcur1 & Hst1).
  set (v1 := snd (collectCharacters classCommaOrSpace input v)) in *.
  assert (Hso : (0 <= so)%Z) by (unfold so, jslength; lia).
  destruct (Vars.position v1 >=? jslength input)%Z eqn:Hge.
  - left. rewrite Hp1 in *. apply substring_from_nil in Hge; [|assumption].
    rewrite Hr1 in Hge. split; [assumption|].
    rewrite Hc1. destruct (Vars.candidates v); reflexivity.
  - right.
    assert (Hne : rest <> []).
    { intros E. rewrite <- Hr1 in E. apply substring_from_nil in E; [|lia].
      congruence. }
    assert (Hch : chars <> []).
    { unfold chars. destruct rest as [|c r] eqn:Er; [congruence|].
      simpl. apply dropWhile_head in Er.
      now rewrite (classNotSpace_of_notCommaOrSpace _ Er). }
    split; [assumption|]. split; [assumption|].
    split; [now rewrite <- Hp1|].
    set (v2 := Vars.set_startOffset (Vars.position v1) v1).
    assert (Hpos2 : (0 <= Vars.position v2)%Z) by (simpl; lia).
    destruct (collectCharacters_spec classNotSpace input v2 Hpos2)
      as (Hf3 & Hp3 & Hr3 & Hu3 & Hd3 & Hs3 & Hc3).
    destruct (collectCharacters_frame classNotSpace input v2)
      as (Hcur3 & Hst3).
    unfold regexLeadingNotSpaces.
    destruct (collectCharacters classNotSpace input v2) as [url v3] eqn:Ecol.
    simpl in Hf3, Hp3, Hr3, Hu3, Hd3, Hs3, Hc3, Hcur3, Hst3.
    rewrite Hr1 in Hf3, Hp3, Hr3. fold chars in Hf3, Hp3.
    destruct chars as [|c0 r0] eqn:Echars; [congruence|]. subst url.
    rewrite Hp1 in Hp3.
    destruct (endsWithComma (c0 :: r0)) eqn:Ecomma.
    + left. split; [reflexivity|]. do 2 f_equal.
      unfold Vars.set_url, Vars.set_descriptors. simpl.
      rewrite Hcur3, Hst3, Hp3, Hs3, Hc3. simpl.
      now rewrite Hcur1, Hst1, Hp1, Hc1.
    + right. split; [reflexivity|].
      unfold tokenize.
      set (v4 := tokenizeEnter input _).
      destruct (tokenizeLoop_total (fuel := tokenFuel) input v4)
        as (v5 & Hrun & Hp5 & _).
      { unfold tokenizeMeasure, tokenizeBound in *. simpl. lia. }
      rewrite Hrun. exists (Vars.position v4), v5.
      assert (Hpos3 : (0 <= Vars.position
                              (Vars.set_url (c0 :: r0)
                                 (Vars.set_descriptors [] v3)))%Z)
        by (simpl; rewrite Hp3; unfold jslength; lia).
      destruct (collectCharacters_spec classSpace input _ Hpos3)
        as (_ & Hp6 & _ & Hu6 & Hd6 & Hs6 & Hc6).
      assert (E4 : v4 = Vars.mk (c0 :: r0) [] [] InDescriptor
                          (Vars.position v4) so (Vars.candidates v)).
      { unfold v4, tokenizeEnter, regexLeadingSpaces.
        unfold Vars.set_state, Vars.set_currentDescriptor. simpl.
        rewrite Hu6, Hd6, Hs6, Hc6. simpl.
        now rewrite Hs3, Hc3, Hc1, Hp1. }
      split; [|split].
      * unfold v4, tokenizeEnter, regexLeadingSpaces. simpl.
        rewrite Hp6. simpl. rewrite Hp3. unfold jslength. lia.
      * rewrite <- E4. exact Hrun.
      * unfold afterDescriptors.
        destruct (parseDescriptors input v5); reflexivity.
Qed.

Lemma tokenizeLoop_frame (fuel : nat) (input : jsstring) :
  forall v v',
    tokenizeLoop fuel input v = Some v' ->
    (Vars.position v <= Vars.position v')%Z /\ sameCandidate v v'.
Proof.
  induction fuel as [|fuel IH]; intros v v' H; [discriminate|].
  simpl in H. destruct (tokenizeTurn input v) as [v1|v1] eqn:E.
  - apply tokenizeTurn_Continue in E as (_ & Hp & (Hu & Hs & Hc) & _).
    destruct (IH v1 v' H) as (Hp' & (Hu' & Hs' & Hc')).
    unfold sameCandidate. repeat split; try congruence; lia.
  - injection H as <-.
    apply tokenizeTurn_DescriptorParser in E as (Hp & Hsame).
    split; [lia | assumption].
Qed.

Lemma afterDescriptors_spec (input : jsstring) (v : Vars.t) :
  let l := validateDescriptors (Vars.descriptors v) in
  afterDescriptors input v
  = if pError l
    then Complete (Throw (Error (messageInvalidDescriptor input (desc l))))
    else SplittingLoop
           (Vars.set_candidates
              (Vars.candidates v
               ++ [candidateOf (Vars.url v) (Vars.startOffset v) l]) v).
Proof.
  unfold afterDescriptors. rewrite parseDescriptors_spec. cbv zeta.
  destruct (pError (validateDescriptors (Vars.descriptors v))); reflexivity.
Qed.

(** An invariant of the candidates and of [position] that every candidate
    [parseDescriptors] pushes keeps holds when the list is returned. *)
Lemma splittingLoop_invariant (I : Z -> list Candidate -> Prop)
  (tokenFuel : nat) (input : jsstring) :
  (tokenizeBound input <= tokenFuel)%nat ->
  (forall p cs so u ds p',
      I p cs -> (0 <= p <= so)%Z ->
      let rest := substring_from input so in
      let chars := takeWhile classNotSpace rest in
      takeWhile classCommaOrSpace rest = [] ->
      chars <> [] ->
      (endsWithComma chars = false /\ u = chars)
      \/ (endsWithComma chars = true /\ u = replaceTrailingCommas chars) ->
      pError (validateDescriptors ds) = false ->
      (so + jslength chars <= p')%Z ->
      I p' (cs ++ [candidateOf u so (validateDescriptors ds)])) ->
  forall fuel v cs,
    (0 <= Vars.position v)%Z ->
    I (Vars.position v) (Vars.candidates v) ->
    splittingLoop fuel tokenFuel input v = Some (Return cs) ->
    exists p, I p cs.
Proof.
  intros Htok HI. induction fuel as [|fuel IH]; intros v cs Hpos Hinv;
    [discriminate|].
  simpl.
  destruct (splittingTurn_cases input v Hpos Htok)
    as [(_ & ->) | (Hne & Hch & Hsub & Hcase)].
  - destruct (Vars.candidates v) eqn:E; [discriminate|].
    intros H. injection H as <-. now exists (Vars.position v).
  - set (so := (Vars.position v + jslength _)%Z) in *.
    assert (Hso : (Vars.position v <= so)%Z) by (unfold so, jslength; lia).
    assert (Hsep : takeWhile classCommaOrSpace (substring_from input so) = [])
      by (rewrite Hsub; apply takeWhile_dropWhile_nil).
    rewrite <- Hsub in Hch, Hcase.
    set (chars := takeWhile classNotSpace (substring_from input so)) in *.
    destruct Hcase as [(Hcomma & ->) | (Hcomma & p & v5 & Hp & Hrun & ->)];
      rewrite afterDescriptors_spec; cbv zeta.
    + cbn [Vars.descriptors Vars.url Vars.startOffset Vars.candidates].
      destruct (pError (validateDescriptors [])) eqn:Hok; [discriminate|].
      apply IH; [simpl; unfold jslength; lia|]. simpl.
      apply (HI (Vars.position v) _ so); auto; try lia; fold chars; lia.
    + apply tokenizeLoop_frame in Hrun as (Hp5 & (Hu5 & Hs5 & Hc5)).
      simpl in Hp5, Hu5, Hs5, Hc5.
      destruct (pError (validateDescriptors (Vars.descriptors v5))) eqn:Hok;
        [discriminate|].
      assert (H0 : (0 <= jslength chars)%Z) by (unfold jslength; lia).
      apply IH; [simpl; lia|]. simpl. rewrite Hu5, Hs5, Hc5.
      apply (HI (Vars.position v) _ so); auto; try lia; fold chars; lia.
Qed.

(** ** The trailing commas of a URL *)

Lemma rev_takeWhile_commas (s : jsstring) :
  s = replaceTrailingCommas s
      ++ rev (takeWhile (char_eqb (code ",")) (rev s)).
Proof.
  unfold replaceTrailingCommas. rewrite <- rev_app_distr.
  now rewrite takeWhile_dropWhile, rev_involutive.
Qed.

Lemma replaceTrailingCommas_last (s : jsstring) :
  endsWithComma (replaceTrailingCommas s) = false.
Proof.
  unfold replaceTrailingCommas.
  destruct (dropWhile (char_eqb (code ",")) (rev s)) as [|c r] eqn:E;
    [reflexivity|].
  cbn [rev]. rewrite endsWithComma_last.
  apply dropWhile_head in E. unfold char_eqb in *. now rewrite N.eqb_sym.
Qed.

Lemma endsWithComma_false_rev (a : jsstring) :
  endsWithComma a = false ->
  dropWhile (char_eqb (code ",")) (rev a) = rev a.
Proof.
  induction a as [|c a' _] using rev_ind; [reflexivity|].
  intros H. rewrite endsWithComma_last in H.
  rewrite rev_app_distr. cbn [rev app dropWhile]. unfold char_eqb in *.
  now rewrite N.eqb_sym, H.
Qed.

Lemma replaceTrailingCommas_split (s : jsstring) :
  exists commas,
    s = replaceTrailingCommas s ++ commas
    /\ Forall (fun c => c = code ",") commas.
Proof.
  exists (rev (takeWhile (char_eqb (code ",")) (rev s))).
  split; [apply rev_takeWhile_commas|].
  apply Forall_rev.
  eapply Forall_impl; [|apply takeWhile_Forall].
  intros c H. apply N.eqb_eq in H. now symmetry.
Qed.

(** X3: [url.replace(regexTrailingCommas, "")] removes the commas that end
    the URL and nothing else: a string that does not end with a comma,
    followed by any number of commas, gives back that string. The result
    never ends with a comma, what was removed is made of commas only, and
    replacing twice is replacing once. *)
Theorem X3_replaceTrailingCommas_strips_exactly_the_commas :
  (forall a commas,
      endsWithComma a = false ->
      Forall (fun c => c = code ",") commas ->
      replaceTrailingCommas (a ++ commas) = a)
  /\ (forall s,
         endsWithComma (replaceTrailingCommas s) = false
         /\ (exists commas,
                s = replaceTrailingCommas s ++ commas
                /\ Forall (fun c => c = code ",") commas)
         /\ replaceTrailingCommas (replaceTrailingCommas s)
            = replaceTrailingCommas s).
Proof.
  assert (Hstrip : forall a commas,
             endsWithComma a = false ->
             Forall (fun c => c = code ",") commas ->
             replaceTrailingCommas (a ++ commas) = a).
  { intros a commas Ha Hc. unfold replaceTrailingCommas.
    rewrite rev_app_distr.
    assert (Hdrop : forall t,
               Forall (fun c => c = code ",") t ->
               forall x, dropWhile (char_eqb (code ",")) (t ++ x)
                         = dropWhile (char_eqb (code ",")) x).
    { induction 1 as [|c t -> _ IH]; intros x; [reflexivity|].
      simpl. apply IH. }
    rewrite Hdrop by (apply Forall_rev; assumption).
    now rewrite (endsWithComma_false_rev _ Ha), rev_involutive. }
  split; [exact Hstrip|].
  intros s. split; [apply replaceTrailingCommas_last|]. split.
  - apply replaceTrailingCommas_split.
  - rewrite <- (app_nil_r (replaceTrailingCommas s)) at 1.
    apply Hstrip; [apply replaceTrailingCommas_last | constructor].
Qed.

(** X3 at "data:,a,,,". *)
Lemma X3_replaceTrailingCommas_witness :
  endsWithComma (str "data:,a") = false
  /\ Forall (fun c => c = code ",") (str ",,,")
  /\ replaceTrailingCommas (str "data:,a" ++ str ",,,") = str "data:,a".
Proof.
  assert (Hc : Forall (fun c => c = code ",") (str ",,,"))
    by (repeat (apply Forall_cons; [reflexivity|]); apply Forall_nil).
  split; [reflexivity|]. split; [exact Hc|].
  exact (proj1 X3_replaceTrailingCommas_strips_exactly_the_commas
           (str "data:,a") (str ",,,") eq_refl Hc).
Defined.

(** ** The URLs of the candidates *)

Lemma classNotSpace_not_whitespace (c : char) :
  classNotSpace c = true -> isASCIIWhitespace c = false.
Proof.
  unfold classNotSpace. rewrite classSpace_isASCIIWhitespace.
  now destruct (isASCIIWhitespace c).
Qed.

Lemma notCommaOrSpace_not_comma (c : char) :
  classCommaOrSpace c = false -> c <> code ",".
Proof. intros H ->. discriminate. Qed.

(** The URL pushed for a run [chars] of non-whitespace that starts with a
    code unit other than a separator. *)
Lemma collected_url_shape (rest u : jsstring) :
  let chars := takeWhile classNotSpace rest in
  takeWhile classCommaOrSpace rest = [] ->
  chars <> [] ->
  (endsWithComma chars = false /\ u = chars)
  \/ (endsWithComma chars = true /\ u = replaceTrailingCommas chars) ->
  (u <> []
   /\ Forall (fun x => isASCIIWhitespace x = false) u
   /\ nth_error u 0 <> Some (code ",")
   /\ endsWithComma u = false)
  /\ (jslength u <= jslength chars)%Z.
Proof.
  intros chars Hsep Hch Hu.
  assert (Hws : Forall (fun x => isASCIIWhitespace x = false) chars).
  { eapply Forall_impl; [|apply takeWhile_Forall].
    apply classNotSpace_not_whitespace. }
  assert (Hhead : nth_error chars 0 <> Some (code ",")).
  { unfold chars in *. destruct rest as [|c0 r0]; [now simpl in Hch|].
    simpl in Hsep, Hch |- *.
    destruct (classCommaOrSpace c0) eqn:E0; [discriminate|].
    destruct (classNotSpace c0); [|congruence].
    simpl. intros E. injection E as ->. discriminate. }
  destruct Hu as [(Hlast & ->) | (Hlast & ->)].
  - split; [repeat split; assumption | lia].
  - pose proof (replaceTrailingCommas_last chars) as Hend.
    destruct (replaceTrailingCommas_split chars) as (commas & Esplit & Hcommas).
    assert (Hlen : (jslength (replaceTrailingCommas chars) <= jslength chars)%Z).
    { rewrite Esplit at 2. rewrite jslength_app. unfold jslength. lia. }
    split; [|exact Hlen].
    destruct (replaceTrailingCommas chars) as [|u0 ur] eqn:Eu.
    + exfalso. simpl in Esplit. rewrite Esplit in Hhead, Hch.
      destruct commas as [|k ks]; [congruence|].
      inversion Hcommas; subst. now apply Hhead.
    + rewrite Esplit in Hws, Hhead. apply Forall_app in Hws as [Hws _].
      repeat split; try assumption; discriminate.
Qed.

(** X4: the URL of every candidate returned is not empty, contains no
    whitespace, and neither starts nor ends with a comma. *)
Theorem X4_returned_urls_are_trimmed (input : jsstring) (cs : list Candidate) :
  parseSrcset input = Some (Return cs) ->
  Forall (fun c =>
            let url := value (source c) in
            url <> []
            /\ Forall (fun x => isASCIIWhitespace x = false) url
            /\ nth_error url 0 <> Some (code ",")
            /\ endsWithComma url = false) cs.
Proof.
  intros H. unfold parseSrcset in H.
  destruct (@splittingLoop_invariant
              (fun _ cs =>
                 Forall (fun c =>
                           let url := value (source c) in
                           url <> []
                           /\ Forall (fun x => isASCIIWhitespace x = false) url
                           /\ nth_error url 0 <> Some (code ",")
                           /\ endsWithComma url = false) cs)
              (tokenizeBound input) input (le_n _)) with (4 := H)
    as [_ Hall]; [| simpl; lia | constructor | exact Hall].
  intros p cs0 so u ds p' Hcs Hp rest chars Hsep Hch Hu _ _.
  apply Forall_app. split; [assumption|]. constructor; [|constructor].
  unfold candidateOf. cbn [source value].
  exact (proj1 (collected_url_shape rest Hsep Hch Hu)).
Qed.

(** X4 at " ,data:,a,,, b,c 2x", whose URLs are "data:,a" and "b,c". *)
Lemma X4_returned_urls_witness :
  parseSrcset (str " ,data:,a,,, b,c 2x")
  = Some (Return
       [ candidateOf (str "data:,a") 2 (validateDescriptors []);
         candidateOf (str "b,c") 13 (validateDescriptors [str "2x"]) ])
  /\ Forall (fun c =>
            let url := value (source c) in
            url <> []
            /\ Forall (fun x => isASCIIWhitespace x = false) url
            /\ nth_error url 0 <> Some (code ",")
            /\ endsWithComma url = false)
       [ candidateOf (str "data:,a") 2 (validateDescriptors []);
         candidateOf (str "b,c") 13 (validateDescriptors [str "2x"]) ].
Proof.
  assert (H : parseSrcset (str " ,data:,a,,, b,c 2x")
              = Some (Return
                   [ candidateOf (str "data:,a") 2 (validateDescriptors []);
                     candidateOf (str "b,c") 13
                       (validateDescriptors [str "2x"]) ]))
    by (vm_compute; reflexivity).
  split; [exact H|].
  exact (X4_returned_urls_are_trimmed _ H).
Defined.

(** ** The order of the candidates *)

(** X5: the candidates are returned in the order of their URLs in the
    input, and their sources do not overlap: a candidate's URL ends, within
    the input, at or before the start offset of every candidate after it,
    so the start offsets increase strictly along the list. *)
Theorem X5_candidates_in_input_order (input : jsstring) (cs : list Candidate) :
  parseSrcset input = Some (Return cs) ->
  forall i j ci cj,
    (i < j)%nat ->
    nth_error cs i = Some ci ->
    nth_error cs j = Some cj ->
    (0 <= startOffset (source ci))%Z
    /\ (startOffset (source ci) + jslength (value (source ci))
        <= startOffset (source cj))%Z
    /\ (startOffset (source ci) < startOffset (source cj))%Z.
Proof.
  intros H. unfold parseSrcset in H.
  set (endOf := fun c : Candidate =>
                  (startOffset (source c) + jslength (value (source c)))%Z).
  destruct (@splittingLoop_invariant
              (fun p cs =>
                 (forall c, In c cs ->
                            (0 <= startOffset (source c))%Z
                            /\ (endOf c <= p)%Z
                            /\ value (source c) <> [])
                 /\ (forall i j ci cj,
                        (i < j)%nat ->
                        nth_error cs i = Some ci ->
                        nth_error cs j = Some cj ->
                        (endOf ci <= startOffset (source cj))%Z))
              (tokenizeBound input) input (le_n _)) with (4 := H)
    as [p [Hin Hpair]].
  - intros p cs0 so u ds p' [Hin Hpair] Hp rest chars Hsep Hch Hu _ Hp'.
    destruct (collected_url_shape rest Hsep Hch Hu) as ((Hne & _) & Hlen).
    fold chars in Hlen.
    split.
    + intros c Hc. apply in_app_or in Hc as [Hc | [<- | []]].
      * destruct (Hin c Hc) as (H0 & He & Hv). repeat split; try assumption.
        unfold jslength in *. lia.
      * unfold endOf, candidateOf. cbn [source value startOffset].
        repeat split; try assumption; unfold jslength in *; lia.
    + intros i j ci cj Hij Hi Hj.
      assert (Hjlen : (j < List.length (cs0 ++ [candidateOf u so (validateDescriptors ds)]))%nat)
        by (apply nth_error_Some; congruence).
      rewrite length_app in Hjlen. simpl in Hjlen.
      rewrite nth_error_app1 in Hi by lia.
      destruct (Nat.eq_dec j (List.length cs0)) as [-> | Hneq].
      * rewrite nth_error_app2, Nat.sub_diag in Hj by lia.
        injection Hj as <-. cbn [candidateOf source startOffset].
        apply nth_error_In in Hi. destruct (Hin ci Hi) as (_ & He & _). lia.
      * rewrite nth_error_app1 in Hj by lia. eauto.
  - simpl. lia.
  - split; [intros c []|]. intros i j ci cj _ Hi. now destruct i.
  - intros i j ci cj Hij Hi Hj.
    pose proof (Hpair i j ci cj Hij Hi Hj) as He.
    apply nth_error_In in Hi. destruct (Hin ci Hi) as (H0 & _ & Hv).
    split; [assumption|]. split; [exact He|].
    unfold endOf in He.
    assert (0 < jslength (value (source ci)))%Z; [|lia].
    unfold jslength. destruct (value (source ci)); [congruence | simpl; lia].
Qed.

(** X5 at the first and the third candidate of "a 1x, b,, c 2w". *)
Lemma X5_candidates_in_input_order_witness :
  let cs := [ candidateOf (str "a") 0 (validateDescriptors [str "1x"]);
              candidateOf (str "b") 6 (validateDescriptors []);
              candidateOf (str "c") 10 (validateDescriptors [str "2w"]) ] in
  parseSrcset (str "a 1x, b,, c 2w") = Some (Return cs)
  /\ (0 < 2)%nat
  /\ nth_error cs 0 = Some (candidateOf (str "a") 0 (validateDescriptors [str "1x"]))
  /\ nth_error cs 2 = Some (candidateOf (str "c") 10 (validateDescriptors [str "2w"]))
  /\ (0 + jslength (str "a") <= 10)%Z.
Proof.
  assert (H : parseSrcset (str "a 1x, b,, c 2w")
              = Some (Return
                   [ candidateOf (str "a") 0 (validateDescriptors [str "1x"]);
                     candidateOf (str "b") 6 (validateDescriptors []);
                     candidateOf (str "c") 10 (validateDescriptors [str "2w"]) ]))
    by (vm_compute; reflexivity).
  assert (H02 : (0 < 2)%nat) by lia.
  split; [exact H|]. split; [exact H02|]. split; [reflexivity|].
  split; [reflexivity|].
  exact (proj1 (proj2 (@X5_candidates_in_input_order _ _ H 0%nat 2%nat _ _
                         H02 eq_refl eq_refl))).
Defined.

(** ** The descriptors that pass *)

Lemma lastCharOf_split (dsc : jsstring) (u : char) :
  lastCharOf dsc = Some u ->
  dsc = substring dsc 0 (jslength dsc - 1) ++ [u].
Proof.
  induction dsc as [|x a _] using rev_ind; [discriminate|].
  rewrite lastCharOf_snoc, substring_snoc. now intros [= ->].
Qed.

Lemma optCharIs_Some (u : char) (a : ascii) :
  optCharIs (Some u) a = true -> u = code a.
Proof. simpl. apply N.eqb_eq. Qed.

Lemma descriptorStep_accepts (l : DescriptorVars) (dsc : jsstring) :
  pError (descriptorStep l dsc) = false ->
  pError l = false /\ acceptedDescriptor dsc.
Proof.
  unfold descriptorStep, acceptedDescriptor.
  destruct (lastCharOf dsc) as [u|] eqn:El.
  - apply lastCharOf_split in El.
    set (num := substring dsc 0 (jslength dsc - 1)) in *.
    destruct (Regex.test regexNonNegativeInteger num && optCharIs (Some u) "w")
      eqn:Ew.
    { apply andb_prop in Ew as [Hre Hu]. apply optCharIs_Some in Hu.
      destruct (strictEq (parseInt num) zero) eqn:E0; [discriminate|].
      intros H. split.
      - destruct (truthyOpt (w (set_desc dsc l)) || truthyOpt (d (set_desc dsc l)));
          [discriminate | exact H].
      - exists num, u. split; [exact El|]. left. auto. }
    destruct (Regex.test regexFloatingPoint num && optCharIs (Some u) "x")
      eqn:Ex.
    { apply andb_prop in Ex as [Hre Hu]. apply optCharIs_Some in Hu.
      destruct (lt (parseFloat num) zero) eqn:E0; [discriminate|].
      intros H. split.
      - destruct (truthyOpt (w (set_desc dsc l)) || truthyOpt (d (set_desc dsc l))
                  || truthyOpt (h (set_desc dsc l)));
          [discriminate | exact H].
      - exists num, u. split; [exact El|]. right. auto. }
    destruct (Regex.test regexNonNegativeInteger num && optCharIs (Some u) "h")
      eqn:Eh; [|discriminate].
    apply andb_prop in Eh as [Hre Hu]. apply optCharIs_Some in Hu.
    destruct (strictEq (parseInt num) zero) eqn:E0; [discriminate|].
    intros H. split.
    + destruct (truthyOpt (h (set_desc dsc l)) || truthyOpt (d (set_desc dsc l)));
        [discriminate | exact H].
    + exists num, u. split; [exact El|]. left. auto.
  - cbn [optCharIs]. rewrite !andb_false_r. discriminate.
Qed.

Lemma fold_descriptorStep_accepts (ds : list jsstring) :
  forall l,
    pError (fold_left descriptorStep ds l) = false ->
    pError l = false /\ Forall acceptedDescriptor ds.
Proof.
  induction ds as [|x ds IH]; intros l H; simpl in *.
  - split; [assumption | constructor].
  - destruct (IH _ H) as [Hx Hds].
    destruct (descriptorStep_accepts _ _ Hx) as [Hl Hacc].
    split; [assumption | now constructor].
Qed.

(** X6: when [parseDescriptors] pushes a candidate, every descriptor of the
    list is digits that do not denote zero followed by [w] or [h], or a
    floating-point number that is not less than zero followed by [x]. So a
    descriptor that passes is made of the code units of "0123456789.eE+-"
    and ends with one of "wxh": a parenthesis, a capital unit, a comma or
    any other code unit in a descriptor makes the call throw. *)
Theorem X6_descriptors_of_a_pushed_candidate (input : jsstring) (v v' : Vars.t) :
  parseDescriptors input v = inl v' ->
  Forall (fun dsc =>
            acceptedDescriptor dsc
            /\ Forall (fun c => classDigit c = true
                                \/ In c (str ".eE+-wxh")) dsc
            /\ exists u, lastCharOf dsc = Some u /\ In u (str "wxh"))
    (Vars.descriptors v).
Proof.
  rewrite parseDescriptors_spec. cbv zeta.
  destruct (pError (validateDescriptors (Vars.descriptors v))) eqn:Hok;
    [discriminate|]. intros _.
  apply fold_descriptorStep_accepts in Hok as [_ Hall].
  eapply Forall_impl; [|exact Hall].
  intros dsc Hacc. split; [exact Hacc|].
  destruct Hacc as (num & u & -> & Hcase).
  rewrite lastCharOf_snoc.
  assert (Hu : In u (str "wxh")).
  { destruct Hcase as [([-> | ->] & _) | (-> & _)]; simpl; tauto. }
  split; [|now exists u].
  apply Forall_app. split.
  - destruct Hcase as [(_ & Hre & _) | (_ & Hre & _)];
      apply test_alphabet in Hre;
      (eapply Forall_impl; [|exact Hre]); intros c; simpl;
      unfold classE, classSign, char_eqb; intros Hc;
      repeat match type of Hc with
      | (_ || _) = true => apply orb_prop in Hc as [Hc | Hc]
      | false = true => discriminate
      end;
      try (left; exact Hc);
      try (right; apply N.eqb_eq in Hc; subst c; simpl; tauto);
      right; destruct c as [|q]; try discriminate;
      apply Pos.eqb_eq in Hc; subst q; simpl; tauto.
  - constructor; [|constructor]. right. simpl in Hu |- *. tauto.
Qed.

(** X6 at the descriptors "12w" and "3h". *)
Lemma X6_descriptors_witness :
  let v := Vars.mk (str "u") [str "12w"; str "3h"] [] InDescriptor 9 0 [] in
  (exists v', parseDescriptors (str "u 12w 3h") v = inl v')
  /\ Forall (fun dsc =>
               acceptedDescriptor dsc
               /\ Forall (fun c => classDigit c = true
                                   \/ In c (str ".eE+-wxh")) dsc
               /\ exists u, lastCharOf dsc = Some u /\ In u (str "wxh"))
       [str "12w"; str "3h"].
Proof.
  split; [eexists; vm_compute; reflexivity|].
  exact (@X6_descriptors_of_a_pushed_candidate (str "u 12w 3h")
           (Vars.mk (str "u") [str "12w"; str "3h"] [] InDescriptor 9 0 [])
           _ eq_refl).
Defined.

(** ** The numbers of the candidates *)

Lemma shr_1_nonneg (mrs : shr_record) :
  (0 <= shr_m mrs)%Z -> (0 <= shr_m (shr_1 mrs))%Z.
Proof.
  destruct mrs as [m r s]. simpl.
  destruct m as [|p|p]; try destruct p; simpl; lia.
Qed.

Lemma iter_pos_shr_1_nonneg (p : positive) :
  forall mrs, (0 <= shr_m mrs)%Z -> (0 <= shr_m (iter_pos shr_1 p mrs))%Z.
Proof.
  induction p as [p IH|p IH|]; intros mrs H; simpl.
  - apply IH, IH, shr_1_nonneg, H.
  - apply IH, IH, H.
  - apply shr_1_nonneg, H.
Qed.

Lemma shr_fexp_nonneg (m e : Z) (l : location) :
  (0 <= m)%Z -> (0 <= shr_m (fst (shr_fexp prec emax m e l)))%Z.
Proof.
  intros H. unfold shr_fexp, shr.
  assert (H0 : (0 <= shr_m (shr_record_of_loc m l))%Z)
    by (destruct l as [|[]]; exact H).
  destruct (fexp prec emax (Zdigits2 m + e) - e)%Z; simpl;
    [assumption | now apply iter_pos_shr_1_nonneg | assumption].
Qed.

Lemma round_nearest_even_nonneg (m : Z) (l : location) :
  (0 <= m)%Z -> (0 <= round_nearest_even m l)%Z.
Proof.
  intros H. destruct l as [|[]]; simpl; try assumption; [|lia].
  destruct (Z.even m); lia.
Qed.

(** Rounding a non-negative significand gives a zero, a finite number or an
    infinity of the sign asked for. *)
Lemma binary_round_aux_sign (s : bool) (m e : Z) (l : location) :
  (0 <= m)%Z ->
  let r := binary_round_aux prec emax s m e l in
  r = S754_zero s \/ r = S754_infinity s \/ exists p q, r = S754_finite s p q.
Proof.
  intros H. unfold binary_round_aux.
  pose proof (shr_fexp_nonneg e l H) as H1.
  destruct (shr_fexp prec emax m e l) as [mrs' e'] eqn:E1. simpl in H1.
  pose proof (shr_fexp_nonneg e' loc_Exact
                (round_nearest_even_nonneg (loc_of_shr_record mrs') H1)) as H2.
  destruct (shr_fexp prec emax _ e' loc_Exact) as [mrs'' e''] eqn:E2.
  simpl in H2. cbv zeta.
  destruct (shr_m mrs'') as [|p|p]; [now left | | lia].
  destruct (e'' <=? emax - prec)%Z; [right; right; eauto | right; now left].
Qed.

Lemma ofDecimal_sign (s : bool) (m e : Z) :
  (0 <= m)%Z ->
  let r := ofDecimal s m e in
  r = S754_zero s \/ r = S754_infinity s \/ exists p q, r = S754_finite s p q.
Proof.
  intros H. unfold ofDecimal. destruct m as [|p|p]; [now left | | lia].
  destruct e as [|k|k].
  - unfold binary_round.
    destruct (shl_align _ _ _) as [mz ez]. now apply binary_round_aux_sign.
  - unfold binary_round.
    destruct (shl_align _ _ _) as [mz ez]. now apply binary_round_aux_sign.
  - destruct (SFdiv_core_binary prec emax (Z.pos p) 0 (Z.pow_pos 10 k) 0)
      as [[mz ez] lz] eqn:E.
    apply binary_round_aux_sign.
    unfold SFdiv_core_binary in E.
    destruct (Z.div_eucl _ (Z.pow_pos 10 k)) as [q r] eqn:Ediv.
    injection E as <- _ _.
    assert (Hq : q = fst (Z.div_eucl
                            match (0 - 0 - Z.min (fexp prec emax (Zdigits2 (Z.pos p) + 0 - (Zdigits2 (Z.pow_pos 10 k) + 0))) (0 - 0))%Z with
                            | 0%Z => Z.pos p
                            | Z.pos _ => Z.shiftl (Z.pos p) (0 - 0 - Z.min (fexp prec emax (Zdigits2 (Z.pos p) + 0 - (Zdigits2 (Z.pow_pos 10 k) + 0))) (0 - 0))
                            | Z.neg _ => 0%Z
                            end (Z.pow_pos 10 k)))
      by now rewrite Ediv.
    rewrite Hq. change (fst (Z.div_eucl ?a ?b)) with (Z.div a b).
    apply Z.div_pos.
    + destruct (0 - 0 - _)%Z; try lia. apply Z.shiftl_nonneg. lia.
    + rewrite Z.pow_pos_fold. apply Z.pow_pos_nonneg; lia.
Qed.

Lemma takeWhile_all (p : char -> bool) (s : jsstring) :
  Forall (fun c => p c = true) s -> takeWhile p s = s.
Proof.
  induction 1 as [|c r Hc _ IH]; simpl; [reflexivity|].
  now rewrite Hc, IH.
Qed.

Lemma digitsValue_nonneg (ds : jsstring) :
  Forall (fun c => classDigit c = true) ds -> (0 <= digitsValue ds)%Z.
Proof.
  unfold digitsValue. intros H.
  assert (G : forall acc, (0 <= acc)%Z ->
                (0 <= fold_left (fun a c => 10 * a + digitValue c) ds acc)%Z).
  { induction H as [|c r Hc _ IH]; intros acc Hacc; cbn [fold_left];
      [assumption|].
    apply IH. unfold classDigit, digitValue in *.
    apply andb_prop in Hc as [H1 _]. apply N.leb_le in H1. lia. }
  apply G. lia.
Qed.

(** [parseInt] on a string of digits: the Number nearest to the integer
    they denote. *)
Lemma parseInt_digits (num : jsstring) :
  Regex.test regexNonNegativeInteger num = true ->
  parseInt num = ofDecimal false (digitsValue num) 0
  /\ (0 <= digitsValue num)%Z.
Proof.
  intros Hre.
  assert (Hall : Forall (fun c => classDigit c = true) num).
  { apply test_alphabet in Hre. eapply Forall_impl; [|exact Hre].
    intros c. simpl. now rewrite orb_diag. }
  split; [|now apply digitsValue_nonneg].
  destruct num as [|c r]; [discriminate|].
  inversion Hall as [|? ? Hc Hr]; subst.
  assert (Hrange : (48 <= c <= 57)%N).
  { unfold classDigit in Hc. apply andb_prop in Hc as [H1 H2].
    apply N.leb_le in H1, H2. lia. }
  assert (Hws : isStrWhiteSpaceChar c = false).
  { unfold isStrWhiteSpaceChar. cbn [existsb].
    repeat match goal with
    | |- context [N.eqb c ?k] =>
        destruct (N.eqb_spec c k); [exfalso; lia|]
    end.
    destruct (N.leb_spec 8192 c); [exfalso; lia | reflexivity]. }
  unfold parseInt, trimStart. cbn [dropWhile]. rewrite Hws.
  unfold takeSign, char_eqb.
  destruct (N.eqb_spec c (code "-")) as [E|_];
    [exfalso; change (code "-") with 45%N in E; lia|].
  destruct (N.eqb_spec c (code "+")) as [E|_];
    [exfalso; change (code "+") with 43%N in E; lia|].
  rewrite (takeWhile_all _ Hall). reflexivity.
Qed.

Lemma parseInt_digits_cases (num : jsstring) :
  Regex.test regexNonNegativeInteger num = true ->
  lt (parseInt num) zero = false
  /\ (strictEq (parseInt num) zero = false -> truthy (parseInt num) = true).
Proof.
  intros Hre. destruct (parseInt_digits _ Hre) as [-> Hnn].
  destruct (ofDecimal_sign false 0 Hnn) as [-> | [-> | (p & q & ->)]];
    split; try reflexivity; discriminate.
Qed.

Lemma positive_of_truthy (x : Number) :
  truthy x = true -> lt x zero = false -> lt zero x = true.
Proof. destruct x as [s|s| |s m e]; try destruct s; cbv; congruence. Qed.

Lemma descriptorStep_nonNegative (l : DescriptorVars) (dsc : jsstring) :
  (forall x, w l = Some x \/ d l = Some x \/ h l = Some x -> lt x zero = false) ->
  forall x,
    w (descriptorStep l dsc) = Some x
    \/ d (descriptorStep l dsc) = Some x
    \/ h (descriptorStep l dsc) = Some x ->
    lt x zero = false.
Proof.
  intros Hl x. unfold descriptorStep.
  set (num := substring dsc 0 (jslength dsc - 1)).
  destruct (Regex.test regexNonNegativeInteger num) eqn:Hint;
  destruct (Regex.test regexFloatingPoint num) eqn:Hfl;
  cbn [andb];
  repeat match goal with
  | |- context [if ?b then _ else _] => destruct b eqn:?
  end; cbn [set_pError set_w set_d set_h set_desc w d h];
  intros [H | [H | H]];
  try (apply Hl; tauto);
  injection H as <-;
  try assumption;
  apply parseInt_digits_cases; assumption.
Qed.

Lemma validateDescriptors_nonNegative (ds : list jsstring) (x : Number) :
  let l := validateDescriptors ds in
  w l = Some x \/ d l = Some x \/ h l = Some x -> lt x zero = false.
Proof.
  unfold validateDescriptors.
  assert (H : forall y, w (Build_DescriptorVars false None None None None) = Some y
                        \/ d (Build_DescriptorVars false None None None None) = Some y
                        \/ h (Build_DescriptorVars false None None None None) = Some y ->
                        lt y zero = false)
    by (simpl; intros y [H | [H | H]]; discriminate).
  revert H x. generalize (Build_DescriptorVars false None None None None).
  induction ds as [|a ds IH]; intros l H x; simpl; [apply H|].
  apply IH. intros y. now apply descriptorStep_nonNegative.
Qed.

Lemma fieldOf_inv (x : option Number) (y : Number) :
  fieldOf x = Some y -> x = Some y /\ truthy y = true.
Proof.
  unfold fieldOf. destruct x as [z|]; simpl; [|discriminate].
  destruct (truthy z) eqn:E; [|discriminate]. intros [= ->]. now split.
Qed.

(** X7: a width, a height or a density that a returned candidate carries
    is a number greater than zero (an infinity included): it is never 0,
    -0, NaN or negative. *)
Theorem X7_numbers_of_candidates_are_positive (input : jsstring)
  (cs : list Candidate) :
  parseSrcset input = Some (Return cs) ->
  Forall (fun c =>
            forall x,
              width c = Some x \/ density c = Some x \/ height c = Some x ->
              lt zero x = true /\ truthy x = true) cs.
Proof.
  intros H. unfold parseSrcset in H.
  refine (splittingLoop_Forall _ (le_n _) _ _ _ _ _ H);
    [|simpl; lia|constructor].
  intros so u ds _ chars _ _ _ x. unfold candidateOf. cbn [width density height].
  intros Hx.
  assert (Hsome : exists y, fieldOf y = Some x
                            /\ (y = w (validateDescriptors ds)
                                \/ y = d (validateDescriptors ds)
                                \/ y = h (validateDescriptors ds))).
  { destruct Hx as [Hx | [Hx | Hx]]; eexists; split; try exact Hx; tauto. }
  destruct Hsome as (y & Hy & Hwhich).
  apply fieldOf_inv in Hy as [-> Ht]. split; [|exact Ht].
  apply positive_of_truthy; [exact Ht|].
  apply (validateDescriptors_nonNegative ds).
  destruct Hwhich as [E | [E | E]]; rewrite <- E; tauto.
Qed.

(** X7 at "data:,a 100w 3h, data:,b 1.5x". *)
Lemma X7_numbers_witness :
  let cs := [ candidateOf (str "data:,a") 0
                (validateDescriptors [str "100w"; str "3h"]);
              candidateOf (str "data:,b") 17
                (validateDescriptors [str "1.5x"]) ] in
  parseSrcset (str "data:,a 100w 3h, data:,b 1.5x") = Some (Return cs)
  /\ Forall (fun c =>
               forall x,
                 width c = Some x \/ density c = Some x \/ height c = Some x ->
                 lt zero x = true /\ truthy x = true) cs.
Proof.
  assert (H : parseSrcset (str "data:,a 100w 3h, data:,b 1.5x")
              = Some (Return
                   [ candidateOf (str "data:,a") 0
                       (validateDescriptors [str "100w"; str "3h"]);
                     candidateOf (str "data:,b") 17
                       (validateDescriptors [str "1.5x"]) ]))
    by (vm_compute; reflexivity).
  split; [exact H|].
  exact (X7_numbers_of_candidates_are_positive _ H).
Defined.

(** ** Descriptors that exclude each other *)

Lemma descriptorStep_for (s : Slot) (num dsc : jsstring) (l0 : DescriptorVars) :
  descriptorFor s num dsc ->
  let l := set_desc dsc l0 in
  descriptorStep l0 dsc
  = match s with
    | SlotW =>
        let l := if truthyOpt (w l) || truthyOpt (d l)
                 then set_pError true l else l in
        if strictEq (parseInt num) zero
        then set_pError true l else set_w (parseInt num) l
    | SlotD =>
        let l := if truthyOpt (w l) || truthyOpt (d l) || truthyOpt (h l)
                 then set_pError true l else l in
        if lt (parseFloat num) zero
        then set_pError true l else set_d (parseFloat num) l
    | SlotH =>
        let l := if truthyOpt (h l) || truthyOpt (d l)
                 then set_pError true l else l in
        if strictEq (parseInt num) zero
        then set_pError true l else set_h (parseInt num) l
    end.
Proof.
  destruct s; intros [-> Hre]; unfold descriptorStep;
    [change (str "w") with [code "w"]
    |change (str "x") with [code "x"]
    |change (str "h") with [code "h"]];
    rewrite lastCharOf_snoc, substring_snoc, Hre.
  - reflexivity.
  - change (optCharIs (Some (code "x")) "w") with false.
    now rewrite andb_false_r.
  - change (optCharIs (Some (code "h")) "w") with false.
    change (optCharIs (Some (code "h")) "x") with false.
    now rewrite !andb_false_r.
Qed.

(** A descriptor whose number counts as present occupies its slot. *)
Lemma descriptorStep_occupies (s : Slot) (num dsc : jsstring)
  (l : DescriptorVars) :
  descriptorFor s num dsc ->
  (s = SlotD -> truthy (parseFloat num) = true) ->
  occupied s (descriptorStep l dsc).
Proof.
  intros Hfor Hd. rewrite (descriptorStep_for s num dsc l Hfor). cbv zeta.
  unfold occupied.
  destruct s; destruct Hfor as [_ Hre].
  - destruct (strictEq (parseInt num) zero) eqn:E0; [now left|].
    right. cbn [slotOf set_w w truthyOpt].
    now apply parseInt_digits_cases.
  - destruct (lt (parseFloat num) zero); [now left|].
    right. cbn [slotOf set_d d truthyOpt]. now apply Hd.
  - destruct (strictEq (parseInt num) zero) eqn:E0; [now left|].
    right. cbn [slotOf set_h h truthyOpt].
    now apply parseInt_digits_cases.
Qed.

(** An occupied slot stays occupied. *)
Lemma descriptorStep_stays_occupied (s : Slot) (l : DescriptorVars)
  (dsc : jsstring) :
  occupied s l -> occupied s (descriptorStep l dsc).
Proof.
  unfold occupied. intros [H | H];
    [left; now apply descriptorStep_pError|].
  unfold descriptorStep.
  set (num := substring dsc 0 (jslength dsc - 1)).
  destruct l as [pe lw ld lh ldesc]. cbn [set_desc pError w d h desc] in *.
  destruct (Regex.test regexNonNegativeInteger num) eqn:Hint;
  destruct (Regex.test regexFloatingPoint num) eqn:Hfl;
  cbn [andb];
  destruct s; cbn [slotOf w d h] in H; rewrite ?H, ?orb_true_r;
  cbn [orb];
  repeat match goal with
  | |- context [if ?b then _ else _] => destruct b eqn:?
  end;
  cbn [set_pError set_w set_d set_h pError w d h slotOf truthyOpt];
  try (now left); try (now right);
  right; apply parseInt_digits_cases; assumption.
Qed.

Lemma fold_descriptorStep_occupied (s : Slot) (ds : list jsstring) :
  forall l, occupied s l -> occupied s (fold_left descriptorStep ds l).
Proof.
  induction ds as [|x ds IH]; intros l H; simpl; [assumption|].
  apply IH, descriptorStep_stays_occupied, H.
Qed.

(** A descriptor for a slot that an occupied slot excludes sets the error
    flag. *)
Lemma descriptorStep_conflict (s1 s2 : Slot) (num dsc : jsstring)
  (l : DescriptorVars) :
  occupied s1 l -> descriptorFor s2 num dsc -> excludes s1 s2 = true ->
  pError (descriptorStep l dsc) = true.
Proof.
  intros [H | H] Hfor Hex; [now apply descriptorStep_pError|].
  rewrite (descriptorStep_for s2 num dsc l Hfor). cbv zeta.
  destruct l as [pe lw ld lh ldesc]. cbn [set_desc pError w d h desc] in *.
  destruct s1, s2; try discriminate; cbn [slotOf w d h] in H;
    rewrite H, ?orb_true_r; cbn [orb];
    repeat match goal with
    | |- context [if ?b then _ else _] => destruct b
    end; reflexivity.
Qed.

(** X8: two width descriptors, two height descriptors, a width or a height
    descriptor with a density descriptor after it, and a density descriptor
    whose number is not 0, -0 or NaN with any descriptor after it, make
    [parseDescriptors] throw, wherever the two stand in the list and
    whatever the other descriptors are. *)
Theorem X8_descriptors_that_exclude_each_other_throw
  (input : jsstring) (v : Vars.t) (s1 s2 : Slot) (n1 n2 d1 d2 : jsstring)
  (before between after : list jsstring) :
  Vars.descriptors v = before ++ d1 :: between ++ d2 :: after ->
  descriptorFor s1 n1 d1 ->
  descriptorFor s2 n2 d2 ->
  (s1 = SlotD -> truthy (parseFloat n1) = true) ->
  excludes s1 s2 = true ->
  exists x,
    parseDescriptors input v
    = inr (Error (messageInvalidDescriptor input (Some x))).
Proof.
  intros Eds H1 H2 Hd Hex.
  destruct (@parseDescriptors_pError input v) as (x & _ & H);
    [|now exists x].
  rewrite Eds. unfold validateDescriptors.
  rewrite fold_left_app. cbn [fold_left]. rewrite fold_left_app.
  cbn [fold_left].
  apply fold_descriptorStep_pError.
  apply (@descriptorStep_conflict s1 s2 n2); try assumption.
  apply fold_descriptorStep_occupied.
  now apply (@descriptorStep_occupies s1 n1).
Qed.

(** X8 at the descriptors "1h 2w 3w". *)
Lemma X8_descriptors_that_exclude_witness :
  let v := Vars.mk (str "u") [str "1h"; str "2w"; str "3w"] []
             InDescriptor 10 0 [] in
  Vars.descriptors v = [str "1h"] ++ str "2w" :: [] ++ str "3w" :: []
  /\ descriptorFor SlotW (str "2") (str "2w")
  /\ descriptorFor SlotW (str "3") (str "3w")
  /\ excludes SlotW SlotW = true
  /\ exists x,
      parseDescriptors (str "u 1h 2w 3w") v
      = inr (Error (messageInvalidDescriptor (str "u 1h 2w 3w") (Some x))).
Proof.
  assert (H2 : descriptorFor SlotW (str "2") (str "2w"))
    by (split; reflexivity).
  assert (H3 : descriptorFor SlotW (str "3") (str "3w"))
    by (split; reflexivity).
  assert (Hd : SlotW = SlotD -> truthy (parseFloat (str "2")) = true)
    by discriminate.
  split; [reflexivity|]. split; [exact H2|]. split; [exact H3|].
  split; [reflexivity|].
  exact (@X8_descriptors_that_exclude_each_other_throw (str "u 1h 2w 3w")
           (Vars.mk (str "u") [str "1h"; str "2w"; str "3w"] []
              InDescriptor 10 0 [])
           SlotW SlotW (str "2") (str "3") (str "2w") (str "3w")
           [str "1h"] [] [] eq_refl H2 H3 Hd eq_refl).
Defined.

(** ** The descriptors the tokenizer collects *)

Lemma endsAt_nil (input : jsstring) (p : Z) : endsAt input [] p.
Proof. exists (firstn (Z.to_nat p) input). now rewrite app_nil_r. Qed.

Lemma firstn_succ_nth (input : jsstring) (n : nat) (c : char) :
  nth_error input n = Some c ->
  firstn (S n) input = firstn n input ++ [c].
Proof.
  revert n. induction input as [|x r IH]; intros [|n] H; simpl in *;
    try discriminate.
  - now injection H as ->.
  - now rewrite (IH _ H).
Qed.

Lemma endsAt_append (input s : jsstring) (p : Z) (c : char) :
  charAt input p = Some c ->
  endsAt input s p -> endsAt input (s ++ [c]) (p + 1).
Proof.
  intros Hc [pre E]. pose proof (charAt_Some _ _ Hc) as Hp.
  unfold charAt in Hc. destruct (Z.ltb_spec p 0); [lia|].
  exists pre. replace (Z.to_nat (p + 1)) with (S (Z.to_nat p)) by lia.
  now rewrite (firstn_succ_nth _ _ Hc), E, app_assoc.
Qed.

Lemma endsAt_isRunOf (input s : jsstring) (p : Z) :
  s <> [] -> endsAt input s p -> isRunOf input s.
Proof.
  intros Hne [pre E]. split; [assumption|].
  exists pre, (skipn (Z.to_nat p) input).
  now rewrite app_assoc, <- E, firstn_skipn.
Qed.

Lemma tokenizeTurn_invariant (input : jsstring) (v : Vars.t) :
  tokenizerInvariant input v ->
  match tokenizeTurn input v with
  | Continue v' => tokenizerInvariant input v'
  | DescriptorParser v' => Forall (isRunOf input) (Vars.descriptors v')
  end.
Proof.
  unfold tokenizerInvariant. intros (Hp & Hcur & Hpar & Haft & Hds).
  assert (Hpush : Vars.currentDescriptor v <> [] ->
                  Forall (isRunOf input)
                    (Vars.descriptors v ++ [Vars.currentDescriptor v])).
  { intros Hne. apply Forall_app. split; [assumption|].
    constructor; [|constructor]. eapply endsAt_isRunOf; eassumption. }
  assert (Happ : forall c, charAt input (Vars.position v) = Some c ->
                 endsAt input (Vars.currentDescriptor v ++ [c])
                   (Vars.position v + 1)
                 /\ Vars.currentDescriptor v ++ [c] <> [])
    by (intros c Hc; split; [now apply endsAt_append | now destruct (Vars.currentDescriptor v)]).
  unfold tokenizeTurn.
  destruct (Vars.state v) eqn:Est;
  destruct (charAt input (Vars.position v)) as [c|] eqn:Ec;
  cbn [optCharTest optCharIs isEOF appendChar];
  repeat match goal with
  | |- context [if ?b then _ else _] => destruct b eqn:?
  | |- context [match Vars.currentDescriptor v with _ => _ end] =>
      destruct (Vars.currentDescriptor v) eqn:?
  end;
  try destruct (Happ c eq_refl) as [Ha Hn];
  unfold advance, pushCurrent;
  repeat match goal with
  | H : Vars.currentDescriptor v = _ |- _ => rewrite H in *
  end;
  cbn [Vars.position Vars.state Vars.currentDescriptor Vars.descriptors
       Vars.set_position Vars.set_state Vars.set_currentDescriptor
       Vars.set_descriptors Vars.url Vars.startOffset Vars.candidates];
  rewrite ?Est;
  try assumption;
  try (apply Hpush; discriminate);
  try (exfalso; now apply Hpar);
  repeat split; try lia; try assumption; try discriminate;
  try apply endsAt_nil; try (intros; congruence);
  try (apply Hpush; discriminate);
  try (replace (Vars.position v - 1 + 1)%Z with (Vars.position v) by lia;
       apply endsAt_nil).
  all: try solve [apply Hpush; auto].
  all: try solve [rewrite (Haft eq_refl); apply endsAt_nil].
  all: try solve [match goal with
                  | H : Vars.currentDescriptor _ = [] |- _ =>
                      rewrite H; apply endsAt_nil
                  end].
  all: destruct (Vars.currentDescriptor v) eqn:E; cbn [Vars.descriptors
         Vars.set_descriptors Vars.set_position];
    [exact Hds | rewrite ?E; apply Hpush; discriminate].
Qed.

Lemma tokenizeLoop_invariant (fuel : nat) (input : jsstring) :
  forall v v',
    tokenizerInvariant input v ->
    tokenizeLoop fuel input v = Some v' ->
    Forall (isRunOf input) (Vars.descriptors v').
Proof.
  induction fuel as [|fuel IH]; intros v v' Hinv H; [discriminate|].
  simpl in H. pose proof (tokenizeTurn_invariant Hinv) as Hturn.
  destruct (tokenizeTurn input v) as [v1|v1].
  - now apply (IH v1).
  - now injection H as <-.
Qed.

(** X9: every descriptor the tokenizer hands to the descriptor parser is a
    non-empty run of consecutive code units of the input, whatever state of
    parentheses the end of the input or a comma stops it in. *)
Theorem X9_collected_descriptors_are_runs_of_the_input
  (fuel : nat) (input url : jsstring) (p so : Z) (cs : list Candidate)
  (v' : Vars.t) :
  (0 <= p)%Z ->
  tokenizeLoop fuel input (Vars.mk url [] [] InDescriptor p so cs) = Some v' ->
  Forall (fun dsc =>
            dsc <> [] /\ exists pre post, input = pre ++ dsc ++ post)
    (Vars.descriptors v').
Proof.
  intros Hp H.
  apply (@tokenizeLoop_invariant fuel input
           (Vars.mk url [] [] InDescriptor p so cs) v'); [|exact H].
  unfold tokenizerInvariant. simpl.
  repeat split; try assumption; try discriminate;
    [apply endsAt_nil | constructor].
Qed.

(** X9 at "u 1x (a, b" after the URL: the descriptors are "1x" and
    "(a, b". *)
Lemma X9_collected_descriptors_witness :
  let input := str "u 1x (a, b" in
  let v' := Vars.mk (str "u") [str "1x"; str "(a, b"] (str "(a, b") InParens
              10 0 [] in
  (0 <= 2)%Z
  /\ tokenizeLoop 20 input (Vars.mk (str "u") [] [] InDescriptor 2 0 [])
     = Some v'
  /\ Forall (fun dsc =>
               dsc <> [] /\ exists pre post, input = pre ++ dsc ++ post)
       [str "1x"; str "(a, b"].
Proof.
  assert (H0 : (0 <= 2)%Z) by lia.
  assert (H : tokenizeLoop 20 (str "u 1x (a, b")
                (Vars.mk (str "u") [] [] InDescriptor 2 0 [])
              = Some (Vars.mk (str "u") [str "1x"; str "(a, b"] (str "(a, b")
                        InParens 10 0 []))
    by (vm_compute; reflexivity).
  split; [exact H0|]. split; [exact H|].
  exact (@X9_collected_descriptors_are_runs_of_the_input 20 _ _ _ _ _ _ H0 H).
Defined.

(** ** What a call throws *)

Lemma dropWhile_nil_Forall (p : char -> bool) (s : jsstring) :
  dropWhile p s = [] -> Forall (fun c => p c = true) s.
Proof.
  induction s as [|c r IH]; simpl; [constructor|].
  destruct (p c) eqn:E; [|discriminate]. intros H. constructor; auto.
Qed.

Lemma splittingLoop_throws (tokenFuel : nat) (input : jsstring) :
  (tokenizeBound input <= tokenFuel)%nat ->
  forall fuel v e,
    (0 <= Vars.position v)%Z ->
    splittingLoop fuel tokenFuel input v = Some (Throw e) ->
    (e = Error messageNoCandidates
     /\ Vars.candidates v = []
     /\ dropWhile classCommaOrSpace (substring_from input (Vars.position v))
        = [])
    \/ (exists x,
           e = Error (messageInvalidDescriptor input (Some x))
           /\ isRunOf input x).
Proof.
  intros Htok. induction fuel as [|fuel IH]; intros v e Hpos;
    [discriminate|].
  simpl.
  destruct (splittingTurn_cases input v Hpos Htok)
    as [(Hrest & ->) | (Hne & Hch & Hsub & Hcase)].
  - destruct (Vars.candidates v) eqn:E; [|discriminate].
    intros [= <-]. left. auto.
  - set (so := (Vars.position v + jslength _)%Z) in *.
    assert (Hso : (Vars.position v <= so)%Z) by (unfold so, jslength; lia).
    assert (Hnext : forall v',
               (0 <= Vars.position v')%Z ->
               Vars.candidates v' <> [] ->
               splittingLoop fuel tokenFuel input v' = Some (Throw e) ->
               exists x,
                 e = Error (messageInvalidDescriptor input (Some x))
                 /\ isRunOf input x).
    { intros v' Hp' Hcs H.
      destruct (IH v' e Hp' H) as [(_ & Hnil & _) | Hx];
        [congruence | exact Hx]. }
    destruct Hcase as [(Hcomma & ->) | (Hcomma & p & v5 & Hp & Hrun & ->)];
      rewrite afterDescriptors_spec; cbv zeta.
    + cbn [Vars.descriptors Vars.url Vars.startOffset Vars.candidates].
      destruct (pError (validateDescriptors [])) eqn:Hok; [discriminate|].
      intros H. right. apply Hnext in H; [exact H | |].
      * simpl. unfold jslength. lia.
      * simpl. now destruct (Vars.candidates v).
    + pose proof (@tokenizeLoop_frame _ _ _ _ Hrun) as (Hp5 & _).
      simpl in Hp5.
      assert (H0 : (0 <= jslength
                          (takeWhile classNotSpace
                             (dropWhile classCommaOrSpace
                                (substring_from input (Vars.position v)))))%Z)
        by (unfold jslength; lia).
      assert (Hruns : Forall (isRunOf input) (Vars.descriptors v5)).
      { apply (@tokenizeLoop_invariant tokenFuel input _ v5) in Hrun;
          [exact Hrun|].
        unfold tokenizerInvariant. simpl.
        repeat split; try discriminate; [lia | apply endsAt_nil | constructor]. }
      destruct (pError (validateDescriptors (Vars.descriptors v5))) eqn:Hok.
      * intros [= <-]. right.
        destruct (validateDescriptors_pError_desc _ Hok) as (x & -> & Hin).
        exists x. split; [reflexivity|].
        rewrite Forall_forall in Hruns. now apply Hruns.
      * intros H. right. apply Hnext in H; [exact H | |].
        -- simpl. lia.
        -- simpl. now destruct (Vars.candidates v5).
Qed.

Lemma separator_of_classCommaOrSpace (c : char) :
  classCommaOrSpace c = true -> In c [32; 9; 10; 12; 13; 44]%N.
Proof.
  unfold classCommaOrSpace, classSpace, char_eqb.
  change (code ",") with 44%N. intros H.
  repeat (apply orb_prop in H as [H | H]);
    apply N.eqb_eq in H; subst c; simpl; tauto.
Qed.

(** X10: when [parseSrcset] throws, either the message is the one of an
    input without candidates and the input is made of separators only (so
    that error never hides a candidate), or the message is the one of an
    invalid descriptor and the descriptor it names is a non-empty run of
    consecutive code units of the input. *)
Theorem X10_thrown_errors (input : jsstring) (e : Thrown) :
  parseSrcset input = Some (Throw e) ->
  (e = Error messageNoCandidates
   /\ Forall (fun c => In c [32; 9; 10; 12; 13; 44]%N) input)
  \/ (exists x pre post,
         e = Error (messageInvalidDescriptor input (Some x))
         /\ x <> []
         /\ input = pre ++ x ++ post).
Proof.
  intros H. unfold parseSrcset in H.
  apply (@splittingLoop_throws _ _ (le_n _)) in H; [|simpl; lia].
  destruct H as [(-> & _ & Hrest) | (x & -> & Hne & pre & post & E)].
  - left. split; [reflexivity|].
    simpl in Hrest. apply dropWhile_nil_Forall in Hrest.
    eapply Forall_impl; [|exact Hrest].
    apply separator_of_classCommaOrSpace.
  - right. exists x, pre, post. auto.
Qed.

(** X10 at "u 1w (2", whose second descriptor is never closed. *)
Lemma X10_thrown_errors_witness :
  parseSrcset (str "u 1w (2")
  = Some (Throw (Error (messageInvalidDescriptor (str "u 1w (2")
                          (Some (str "(2")))))
  /\ ((Error (messageInvalidDescriptor (str "u 1w (2") (Some (str "(2")))
       = Error messageNoCandidates
       /\ Forall (fun c => In c [32; 9; 10; 12; 13; 44]%N) (str "u 1w (2"))
      \/ (exists x pre post,
             Error (messageInvalidDescriptor (str "u 1w (2") (Some (str "(2")))
             = Error (messageInvalidDescriptor (str "u 1w (2") (Some x))
             /\ x <> []
             /\ str "u 1w (2" = pre ++ x ++ post)).
Proof.
  assert (H : parseSrcset (str "u 1w (2")
              = Some (Throw (Error (messageInvalidDescriptor (str "u 1w (2")
                                      (Some (str "(2"))))))
    by (vm_compute; reflexivity).
  split; [exact H|].
  exact (X10_thrown_errors _ H).
Defined.

(** ** A URL without descriptors *)

Lemma replaceTrailingCommas_strip (a commas : jsstring) :
  endsWithComma a = false ->
  Forall (fun c => c = code ",") commas ->
  replaceTrailingCommas (a ++ commas) = a.
Proof.
  intros Ha Hc. unfold replaceTrailingCommas. rewrite rev_app_distr.
  assert (Hdrop : forall t,
             Forall (fun c => c = code ",") t ->
             forall x, dropWhile (char_eqb (code ",")) (t ++ x)
                       = dropWhile (char_eqb (code ",")) x).
  { induction 1 as [|c t -> _ IH]; intros x; [reflexivity|].
    simpl. apply IH. }
  rewrite Hdrop by (apply Forall_rev; assumption).
  now rewrite (endsWithComma_false_rev _ Ha), rev_involutive.
Qed.

(** The in-descriptor state, with no descriptor begun, on a run of
    separators that ends the input: nothing is pushed. *)
Lemma tokenizesTo_no_descriptor (post : jsstring) :
  forall a u ds so cs,
    Forall (fun c => classCommaOrSpace c = true) post ->
    exists r,
      tokenizesTo (a ++ post)
        (Vars.mk u ds [] InDescriptor (jslength a) so cs) r
      /\ endsWith (a ++ post) u ds so cs r.
Proof.
  induction post as [|c post IH]; intros a u ds so cs Hall.
  - eexists. split.
    + apply tokenizesTo_DescriptorParser.
      unfold tokenizeTurn. simpl. rewrite charAt_app. reflexivity.
    + unfold endsWith, pushCurrent. simpl. repeat split.
      exists a, []. repeat split. constructor.
  - inversion Hall as [|? ? Hc Hpost]; subst.
    destruct (classCommaOrSpace_cases c Hc) as [Hws | [Hws Hcomma]].
    + destruct (IH (a ++ [c]) u ds so cs Hpost) as (r & Hrun & Hend).
      rewrite <- app_assoc in Hrun, Hend. simpl in Hrun, Hend.
      exists r. split; [|assumption].
      eapply tokenizesTo_Continue; [|exact Hrun].
      unfold tokenizeTurn. simpl. rewrite charAt_app. simpl.
      rewrite Hws. unfold advance. simpl.
      now rewrite jslength_app.
    + eexists. split.
      * apply tokenizesTo_DescriptorParser.
        unfold tokenizeTurn. simpl. rewrite charAt_app. simpl.
        rewrite Hws, Hcomma. reflexivity.
      * unfold endsWith, pushCurrent. simpl. repeat split.
        exists (a ++ [c]), post. rewrite <- app_assoc, jslength_app.
        repeat split. assumption.
Qed.

(** With only separators left and a candidate pushed, the next turn of the
    splitting loop returns the candidates. *)
Lemma splittingLoop_finish (fuel tokenFuel : nat) (input : jsstring)
  (v : Vars.t) (a post : jsstring) :
  (tokenizeBound input <= tokenFuel)%nat ->
  input = a ++ post ->
  Vars.position v = jslength a ->
  Forall (fun c => classCommaOrSpace c = true) post ->
  Vars.candidates v <> [] ->
  splittingLoop (S fuel) tokenFuel input v = Some (Return (Vars.candidates v)).
Proof.
  intros Htok Ein Hp Hpost Hcs. cbn [splittingLoop].
  assert (Hpos : (0 <= Vars.position v)%Z)
    by (rewrite Hp; unfold jslength; lia).
  destruct (splittingTurn_spec input v Hpos Htok)
    as [(_ & ->) | (Hne & _)].
  - now destruct (Vars.candidates v).
  - exfalso. apply Hne. rewrite Hp, Ein, substring_from_app.
    now apply dropWhile_all.
Qed.

Lemma comma_is_notSpace (c : char) :
  char_eqb (code ",") c = true -> classNotSpace c = true /\ c = code ",".
Proof.
  intros H. apply N.eqb_eq in H. subst c. now split.
Qed.

Lemma separators_after_commas (seps : jsstring) :
  Forall (fun c => classCommaOrSpace c = true) seps ->
  let commas := takeWhile (char_eqb (code ",")) seps in
  let rest := dropWhile (char_eqb (code ",")) seps in
  seps = commas ++ rest
  /\ Forall (fun c => c = code ",") commas
  /\ Forall (fun c => classNotSpace c = true) commas
  /\ Forall (fun c => classCommaOrSpace c = true) rest
  /\ takeWhile classNotSpace rest = [].
Proof.
  intros Hall commas rest.
  assert (Esplit : seps = commas ++ rest)
    by (symmetry; apply takeWhile_dropWhile).
  assert (Hc : Forall (fun c => char_eqb (code ",") c = true) commas)
    by apply takeWhile_Forall.
  split; [exact Esplit|].
  split; [eapply Forall_impl; [|exact Hc]; intros c H;
          now apply comma_is_notSpace in H|].
  split; [eapply Forall_impl; [|exact Hc]; intros c H;
          now apply comma_is_notSpace in H|].
  assert (Hrest : Forall (fun c => classCommaOrSpace c = true) rest)
    by (rewrite Esplit in Hall; now apply Forall_app in Hall).
  split; [exact Hrest|].
  destruct rest as [|c r] eqn:Er; [reflexivity|].
  apply takeWhile_head_false.
  pose proof (dropWhile_head _ _ Er) as Hnc.
  pose proof (Forall_inv Hrest) as Hc0. cbv beta in Hc0.
  apply classCommaOrSpace_cases in Hc0 as [Hws | [_ Hcomma]].
  - unfold classNotSpace. now rewrite classSpace_isASCIIWhitespace, Hws.
  - unfold char_eqb in *. rewrite N.eqb_sym in Hcomma.
    change (code ",") with 44%N in Hnc. congruence.
Qed.

(** X11: a URL with nothing but separators around it gives one candidate
    without width, density or height, whose source is the URL at the offset
    where it starts: the commas that follow the URL are not part of it, and
    whitespace after it starts no descriptor. *)
Theorem X11_url_without_descriptors (pre url seps : jsstring) :
  Forall (fun c => classCommaOrSpace c = true) pre ->
  plainUrl url ->
  Forall (fun c => classCommaOrSpace c = true) seps ->
  parseSrcset (pre ++ url ++ seps)
  = Some (Return
       [ {| source := {| value := url; startOffset := jslength pre |};
            width := None; density := None; height := None |} ]).
Proof.
  intros Hpre (Hurl & (u0 & ur & Eu & Hu0) & Hlast) Hseps.
  destruct (separators_after_commas Hseps)
    as (Esplit & Hcommas & Hcns & Hrest & Hstop).
  remember (takeWhile (char_eqb (code ",")) seps) as commas eqn:Ecm.
  remember (dropWhile (char_eqb (code ",")) seps) as rest eqn:Ers.
  clear Ecm Ers.
  remember (pre ++ url ++ seps) as input eqn:Einput.
  assert (Einput' : input = pre ++ (url ++ commas) ++ rest)
    by (rewrite Einput, Esplit, <- app_assoc; reflexivity).
  set (cand := {| source := {| value := url; startOffset := jslength pre |};
                  width := None; density := None; height := None |}).
  assert (E1 : snd (collectCharacters classCommaOrSpace input Vars.initial)
               = Vars.mk [] [] [] InDescriptor (jslength pre) 0 []).
  { rewrite Einput.
    pose proof (@collectCharacters_run classCommaOrSpace [] pre
                  (url ++ seps) [] [] [] InDescriptor 0%Z [] Hpre) as H.
    cbn [app] in H. change (jslength []) with 0%Z in H.
    unfold Vars.initial. rewrite H; [reflexivity|].
    rewrite Eu. now apply takeWhile_head_false. }
  assert (Hlt : (jslength pre >=? jslength input)%Z = false).
  { rewrite Z.geb_leb. apply Z.leb_gt. rewrite Einput, Eu.
    rewrite !jslength_app. unfold jslength. cbn [List.length]. lia. }
  assert (E2 : collectCharacters classNotSpace input
                 (Vars.mk [] [] [] InDescriptor (jslength pre) (jslength pre) [])
               = (Some (url ++ commas),
                  Vars.mk [] [] [] InDescriptor
                    (jslength (pre ++ url ++ commas)) (jslength pre) [])).
  { rewrite Einput'.
    rewrite (@collectCharacters_run classNotSpace pre (url ++ commas) rest);
      [|apply Forall_app; now split|assumption].
    rewrite Eu. reflexivity. }
  (* the first turn *)
  assert (Eturn : exists v',
             splittingTurn (tokenizeBound input) input Vars.initial
             = Some (SplittingLoop v')
             /\ Vars.candidates v' = [cand]
             /\ exists a post,
                 input = a ++ post /\ Vars.position v' = jslength a
                 /\ Forall (fun c => classCommaOrSpace c = true) post).
  { unfold splittingTurn.
    unfold regexLeadingCommasOrSpaces, regexLeadingNotSpaces.
    rewrite E1. cbn [Vars.position]. rewrite Hlt.
    unfold Vars.set_startOffset.
    cbn [Vars.url Vars.descriptors Vars.currentDescriptor Vars.state
         Vars.position Vars.candidates].
    rewrite E2.
    unfold Vars.set_descriptors, Vars.set_url.
    cbn [Vars.url Vars.descriptors Vars.currentDescriptor Vars.state
         Vars.position Vars.startOffset Vars.candidates].
    destruct commas as [|k ks].
    - (* no comma ends the URL: the tokenizer finds no descriptor *)
      rewrite app_nil_r in *. rewrite Hlast.
      unfold tokenize, tokenizeEnter, regexLeadingSpaces.
      set (ws := takeWhile classSpace rest).
      set (post := dropWhile classSpace rest).
      assert (Ein3 : input = (pre ++ url) ++ ws ++ post).
      { rewrite Einput', <- app_assoc. f_equal. f_equal.
        symmetry. apply takeWhile_dropWhile. }
      assert (Hpost : Forall (fun c => classCommaOrSpace c = true) post).
      { pose proof (takeWhile_dropWhile classSpace rest) as E.
        fold ws post in E. rewrite <- E in Hrest.
        now apply Forall_app in Hrest. }
      assert (E3 : snd (collectCharacters classSpace input
                          (Vars.mk url [] [] InDescriptor
                             (jslength (pre ++ url)) (jslength pre) []))
                   = Vars.mk url [] [] InDescriptor
                       (jslength ((pre ++ url) ++ ws)) (jslength pre) []).
      { rewrite Ein3.
        rewrite (@collectCharacters_run classSpace (pre ++ url) ws post);
          [reflexivity|apply takeWhile_Forall|apply takeWhile_dropWhile_nil]. }
      rewrite E3. unfold Vars.set_currentDescriptor, Vars.set_state.
      cbn [Vars.url Vars.descriptors Vars.currentDescriptor Vars.state
           Vars.position Vars.startOffset Vars.candidates].
      destruct (@tokenizesTo_no_descriptor post ((pre ++ url) ++ ws) url []
                  (jslength pre) [] Hpost)
        as (r & Hrun & (Hru & Hrd & Hrs & Hrc & a' & post' & Ein & Hrp & Hpost')).
      rewrite <- app_assoc, <- Ein3 in Hrun, Ein.
      apply tokenizesTo_bound in Hrun. rewrite Hrun.
      rewrite parseDescriptors_spec. cbv zeta. rewrite Hrd, Hru, Hrs, Hrc.
      change (pError (validateDescriptors [])) with false. cbv iota.
      eexists. split; [reflexivity|]. split; [reflexivity|].
      exists a', post'. repeat split; assumption.
    - (* commas end the URL: they are removed and no descriptor is read *)
      assert (Hends : endsWithComma (url ++ k :: ks) = true).
      { destruct (@exists_last _ (k :: ks)) as (ks' & kl & E);
          [discriminate|].
        rewrite E, app_assoc, endsWithComma_last.
        rewrite E in Hcommas. apply Forall_app in Hcommas as [_ Hl].
        inversion Hl; subst. reflexivity. }
      rewrite Hends.
      rewrite (replaceTrailingCommas_strip _ Hlast Hcommas).
      rewrite parseDescriptors_spec. cbv zeta.
      cbn [Vars.url Vars.descriptors Vars.startOffset Vars.candidates].
      change (pError (validateDescriptors [])) with false. cbv iota.
      eexists. split; [reflexivity|]. split; [reflexivity|].
      exists (pre ++ url ++ k :: ks), rest.
      rewrite Einput'. rewrite <- !app_assoc. repeat split. assumption. }
  destruct Eturn as (v' & Eturn & Hcs & a & post & Ein & Hp & Hpost).
  unfold parseSrcset.
  assert (Hfuel : exists k, splittingBound input = S (S k)).
  { unfold splittingBound. rewrite Einput, Eu, !length_app.
    cbn [List.length].
    exists (List.length pre + (List.length ur + List.length seps))%nat. lia. }
  destruct Hfuel as [k ->].
  remember (S k) as k1 eqn:Ek1. cbn [splittingLoop]. rewrite Eturn.
  subst k1.
  rewrite (@splittingLoop_finish k (tokenizeBound input) input v' a post
             (le_n _) Ein Hp Hpost); [now rewrite Hcs|].
  rewrite Hcs. discriminate.
Qed.

(** X11 at " data:,a,, ". *)
Lemma X11_url_without_descriptors_witness :
  Forall (fun c => classCommaOrSpace c = true) (str " ")
  /\ plainUrl (str "data:,a")
  /\ Forall (fun c => classCommaOrSpace c = true) (str ",, ")
  /\ parseSrcset (str " " ++ str "data:,a" ++ str ",, ")
     = Some (Return
          [ {| source := {| value := str "data:,a"; startOffset := 1 |};
               width := None; density := None; height := None |} ]).
Proof.
  assert (H1 : Forall (fun c => classCommaOrSpace c = true) (str " "))
    by (repeat (apply Forall_cons; [reflexivity|]); apply Forall_nil).
  assert (H2 : Forall (fun c => classCommaOrSpace c = true) (str ",, "))
    by (repeat (apply Forall_cons; [reflexivity|]); apply Forall_nil).
  split; [exact H1|]. split; [exact plainUrl_data_a|]. split; [exact H2|].
  exact (X11_url_without_descriptors H1 plainUrl_data_a H2).
Defined.

(** ** One candidate with one descriptor *)




(** ** Separators before the input *)

Section Shift.

Variables pre input : jsstring.

Let k : Z := jslength pre.
Let longer : jsstring := pre ++ input.

Lemma charAt_shift (p : Z) :
  (0 <= p)%Z -> charAt longer (p + k) = charAt input p.
Proof.
  intros Hp. unfold charAt, longer, k, jslength.
  destruct (Z.ltb_spec (p + Z.of_nat (List.length pre)) 0); [lia|].
  destruct (Z.ltb_spec p 0); [lia|].
  rewrite nth_error_app2 by lia. f_equal. lia.
Qed.

Lemma substring_from_shift (p : Z) :
  (0 <= p)%Z -> substring_from longer (p + k) = substring_from input p.
Proof.
  intros Hp. unfold substring_from, longer, k, jslength.
  replace (Z.to_nat (p + Z.of_nat (List.length pre)))
    with (List.length pre + Z.to_nat p)%nat by lia.
  rewrite skipn_app.
  replace (List.length pre + Z.to_nat p - List.length pre)%nat
    with (Z.to_nat p) by lia.
  rewrite skipn_all2 by lia. reflexivity.
Qed.

Lemma collectCharacters_shift (p : char -> bool) (v : Vars.t) :
  (0 <= Vars.position v)%Z ->
  collectCharacters p longer (shiftVars k v)
  = (fst (collectCharacters p input v),
     shiftVars k (snd (collectCharacters p input v))).
Proof.
  intros Hp. unfold collectCharacters.
  cbn [shiftVars Vars.position]. rewrite (substring_from_shift Hp).
  destruct (takeWhile p (substring_from input (Vars.position v)));
    [reflexivity|].
  cbn [fst snd]. unfold shiftVars, Vars.set_position. simpl. f_equal. f_equal.
  lia.
Qed.

Lemma tokenizeTurn_shift (v : Vars.t) :
  (0 <= Vars.position v)%Z ->
  tokenizeTurn longer (shiftVars k v)
  = match tokenizeTurn input v with
    | Continue v' => Continue (shiftVars k v')
    | DescriptorParser v' => DescriptorParser (shiftVars k v')
    end.
Proof.
  intros Hp. unfold tokenizeTurn.
  cbn [shiftVars Vars.position Vars.state Vars.currentDescriptor].
  rewrite (charAt_shift Hp).
  destruct v as [u ds cur st p so cs].
  cbn [Vars.position Vars.state Vars.currentDescriptor] in *.
  destruct st; destruct (charAt input p) as [c|];
    cbn [optCharTest optCharIs isEOF appendChar];
    repeat match goal with
    | |- context [if ?b then _ else _] => destruct b
    end;
    try destruct cur;
    unfold shiftVars, advance, pushCurrent, Vars.set_position,
      Vars.set_state, Vars.set_currentDescriptor, Vars.set_descriptors;
    cbn [Vars.url Vars.descriptors Vars.currentDescriptor Vars.state
         Vars.position Vars.startOffset Vars.candidates];
    try reflexivity; f_equal; f_equal; lia.
Qed.

Lemma tokenizeLoop_shift (fuel : nat) :
  forall v,
    (0 <= Vars.position v)%Z ->
    tokenizeLoop fuel longer (shiftVars k v)
    = option_map (shiftVars k) (tokenizeLoop fuel input v).
Proof.
  induction fuel as [|fuel IH]; intros v Hp; [reflexivity|].
  cbn [tokenizeLoop]. rewrite (tokenizeTurn_shift v Hp).
  destruct (tokenizeTurn input v) as [v1|v1] eqn:E; [|reflexivity].
  apply IH. apply tokenizeTurn_Continue in E. lia.
Qed.

Lemma parseDescriptors_shift (v : Vars.t) :
  match parseDescriptors input v, parseDescriptors longer (shiftVars k v) with
  | inl v1, inl v2 => v2 = shiftVars k v1
  | inr e1, inr e2 =>
      exists dsc, e1 = Error (messageInvalidDescriptor input dsc)
                  /\ e2 = Error (messageInvalidDescriptor longer dsc)
  | _, _ => False
  end.
Proof.
  rewrite !parseDescriptors_spec. cbv zeta.
  cbn [shiftVars Vars.descriptors].
  destruct (pError (validateDescriptors (Vars.descriptors v)));
    [eexists; split; reflexivity|].
  unfold shiftVars, Vars.set_candidates, candidateOf, shiftCandidate. simpl.
  now rewrite map_app.
Qed.

Lemma tokenizeEnter_shift (v : Vars.t) :
  (0 <= Vars.position v)%Z ->
  tokenizeEnter longer (shiftVars k v) = shiftVars k (tokenizeEnter input v).
Proof.
  intros Hp. unfold tokenizeEnter. cbv zeta.
  rewrite (collectCharacters_shift regexLeadingSpaces v Hp). cbn [snd].
  reflexivity.
Qed.

Lemma tokenize_shift (fuel : nat) (v : Vars.t) :
  (0 <= Vars.position v)%Z ->
  match tokenize fuel input v, tokenize fuel longer (shiftVars k v) with
  | Some (inl v1), Some (inl v2) => v2 = shiftVars k v1
  | Some (inr e1), Some (inr e2) =>
      exists dsc, e1 = Error (messageInvalidDescriptor input dsc)
                  /\ e2 = Error (messageInvalidDescriptor longer dsc)
  | None, None => True
  | _, _ => False
  end.
Proof.
  intros Hp. unfold tokenize. rewrite (tokenizeEnter_shift v Hp).
  rewrite tokenizeLoop_shift.
  - destruct (tokenizeLoop fuel input (tokenizeEnter input v)) as [v1|];
      cbn [option_map]; [|exact I].
    apply parseDescriptors_shift.
  - unfold tokenizeEnter. cbv zeta. cbn [Vars.position Vars.set_state
      Vars.set_currentDescriptor].
    destruct (collectCharacters_spec regexLeadingSpaces input v Hp)
      as (_ & Hq & _).
    unfold Vars.set_state, Vars.set_currentDescriptor. simpl.
    simpl in Hq. rewrite Hq. unfold jslength. lia.
Qed.

(** A turn of the splitting loop on the two inputs. *)
Lemma splittingTurn_shift (tokenFuel : nat) (v : Vars.t) :
  (0 <= Vars.position v)%Z ->
  match splittingTurn tokenFuel input v,
        splittingTurn tokenFuel longer (shiftVars k v) with
  | Some (SplittingLoop v1), Some (SplittingLoop v2) => v2 = shiftVars k v1
  | Some (Complete c1), Some (Complete c2) =>
      shifted k input longer c1 c2
      \/ (c1 = Throw TypeError /\ c2 = Throw TypeError)
  | None, None => True
  | _, _ => False
  end.
Proof.
  intros Hp. unfold splittingTurn. cbv zeta.
  rewrite (collectCharacters_shift regexLeadingCommasOrSpaces v Hp).
  cbn [snd].
  destruct (collectCharacters_spec regexLeadingCommasOrSpaces input v Hp)
    as (_ & Hq & _). cbv zeta in Hq.
  set (v1 := snd (collectCharacters regexLeadingCommasOrSpaces input v)) in *.
  assert (Hp1 : (0 <= Vars.position v1)%Z)
    by (rewrite Hq; unfold jslength; lia).
  assert (Hlen : jslength longer = (jslength input + k)%Z)
    by (unfold longer, k, jslength; rewrite length_app; lia).
  replace (Vars.position (shiftVars k v1) >=? jslength longer)%Z
    with (Vars.position v1 >=? jslength input)%Z
    by (cbn [shiftVars Vars.position]; rewrite Hlen, !Z.geb_leb;
        destruct (Z.leb_spec (jslength input) (Vars.position v1));
        symmetry; [apply Z.leb_le | apply Z.leb_gt]; lia).
  destruct (Vars.position v1 >=? jslength input)%Z.
  - cbn [shiftVars Vars.candidates]. rewrite length_map.
    destruct (Vars.candidates v1); cbn [List.length Nat.eqb];
      left; [constructor|].
    apply (shifted_Return k input longer (c :: l)).
  - replace (Vars.set_startOffset (Vars.position (shiftVars k v1))
               (shiftVars k v1))
      with (shiftVars k (Vars.set_startOffset (Vars.position v1) v1))
      by reflexivity.
    set (v2 := Vars.set_startOffset (Vars.position v1) v1).
    assert (Hp2 : (0 <= Vars.position v2)%Z) by exact Hp1.
    rewrite (collectCharacters_shift regexLeadingNotSpaces v2 Hp2).
    destruct (collectCharacters_spec regexLeadingNotSpaces input v2 Hp2)
      as (_ & Hq3 & _). cbv zeta in Hq3.
    destruct (collectCharacters regexLeadingNotSpaces input v2)
      as [[url|] v3]; cbn [fst snd] in *; [|right; split; reflexivity].
    assert (Hp3 : (0 <= Vars.position v3)%Z)
      by (rewrite Hq3; unfold jslength; lia).
    destruct (endsWithComma url).
    + pose proof (parseDescriptors_shift
                    (Vars.set_url (replaceTrailingCommas url)
                       (Vars.set_url url (Vars.set_descriptors [] v3))))
        as H.
      change (shiftVars k
                (Vars.set_url (replaceTrailingCommas url)
                   (Vars.set_url url (Vars.set_descriptors [] v3))))
        with (Vars.set_url (replaceTrailingCommas url)
                (Vars.set_url url
                   (Vars.set_descriptors [] (shiftVars k v3)))) in H.
      destruct (parseDescriptors input _) as [r1|e1];
        destruct (parseDescriptors longer _) as [r2|e2];
        try contradiction; [exact H|].
      destruct H as (dsc & -> & ->). left. constructor.
    + pose proof (@tokenize_shift tokenFuel
                    (Vars.set_url url (Vars.set_descriptors [] v3)) Hp3)
        as H.
      change (shiftVars k (Vars.set_url url (Vars.set_descriptors [] v3)))
        with (Vars.set_url url (Vars.set_descriptors [] (shiftVars k v3)))
        in H.
      destruct (tokenize tokenFuel input _) as [[r1|e1]|];
        destruct (tokenize tokenFuel longer _) as [[r2|e2]|];
        try contradiction; try exact H.
      destruct H as (dsc & -> & ->). left. constructor.
Qed.

Lemma splittingLoop_shift (tokenFuel fuel : nat) :
  forall v c,
    (0 <= Vars.position v)%Z ->
    (tokenizeBound input <= tokenFuel)%nat ->
    splittingLoop fuel tokenFuel input v = Some c ->
    exists c',
      splittingLoop fuel tokenFuel longer (shiftVars k v) = Some c'
      /\ (shifted k input longer c c'
          \/ (c = Throw TypeError /\ c' = Throw TypeError)).
Proof.
  induction fuel as [|fuel IH]; intros v c Hp Htok H; [discriminate|].
  cbn [splittingLoop] in *.
  pose proof (@splittingTurn_shift tokenFuel v Hp) as T.
  destruct (splittingTurn tokenFuel input v) as [[v1|c1]|] eqn:E1;
    [| |discriminate];
    destruct (splittingTurn tokenFuel longer (shiftVars k v))
      as [[v2|c2]|]; try contradiction.
  - subst v2. apply IH; try assumption.
    destruct (splittingTurn_spec input v Hp Htok)
      as [(_ & E) | (_ & _ & _ & ds & u & _ & Hres)]; [congruence|].
    cbv zeta in Hres. destruct (pError (validateDescriptors ds));
      [congruence|].
    destruct Hres as (v' & E & _ & Hadv).
    assert (v' = v1) by congruence. subst v'.
    unfold jslength in *. lia.
  - injection H as <-. exists c2. split; [reflexivity | exact T].
Qed.

Lemma takeWhile_prefix (p : char -> bool) (a b : jsstring) :
  Forall (fun c => p c = true) a ->
  takeWhile p (a ++ b) = a ++ takeWhile p b.
Proof.
  induction 1 as [|c r Hc _ IH]; simpl; [reflexivity|].
  now rewrite Hc, IH.
Qed.

(** The first turn of the splitting loop skips the separators the longer
    input starts with. *)
Lemma splittingTurn_leading (tokenFuel : nat) :
  Forall (fun c => classCommaOrSpace c = true) pre ->
  splittingTurn tokenFuel longer Vars.initial
  = splittingTurn tokenFuel longer (shiftVars k Vars.initial).
Proof.
  intros Hpre. unfold splittingTurn. cbv zeta.
  set (q := (k + jslength (takeWhile classCommaOrSpace input))%Z).
  assert (E1 : snd (collectCharacters regexLeadingCommasOrSpaces longer
                      Vars.initial)
               = Vars.mk [] [] [] InDescriptor q 0 []).
  { unfold collectCharacters, regexLeadingCommasOrSpaces, Vars.initial.
    cbn [Vars.position]. change (substring_from longer 0) with longer.
    unfold longer. rewrite (takeWhile_prefix _ input Hpre).
    destruct (pre ++ takeWhile classCommaOrSpace input) as [|c r] eqn:E.
    - apply app_eq_nil in E as (Ea & Eb). unfold q, k. rewrite Ea, Eb.
      reflexivity.
    - cbn [snd]. unfold Vars.set_position. simpl. rewrite <- E.
      unfold q, k, jslength. rewrite length_app. f_equal. lia. }
  assert (E2 : snd (collectCharacters regexLeadingCommasOrSpaces longer
                      (shiftVars k Vars.initial))
               = Vars.mk [] [] [] InDescriptor q k []).
  { unfold collectCharacters, regexLeadingCommasOrSpaces.
    cbn [shiftVars Vars.initial Vars.position].
    rewrite substring_from_shift by lia.
    change (substring_from input 0) with input.
    destruct (takeWhile classCommaOrSpace input) as [|c r] eqn:E.
    - cbn [snd]. unfold shiftVars, q, jslength. simpl. f_equal; lia.
    - cbn [snd]. unfold Vars.set_position, shiftVars, q.
      cbn [Vars.url Vars.descriptors Vars.currentDescriptor Vars.state
           Vars.position Vars.startOffset Vars.candidates Vars.initial map].
      f_equal; lia. }
  rewrite E1, E2. reflexivity.
Qed.

End Shift.

Lemma tokenize_mono (n m : nat) (input : jsstring) (v : Vars.t)
  (r : Vars.t + Thrown) :
  tokenize n input v = Some r -> (n <= m)%nat -> tokenize m input v = Some r.
Proof.
  unfold tokenize. intros H Hle.
  destruct (tokenizeLoop n input (tokenizeEnter input v)) as [v'|] eqn:E;
    [|discriminate].
  now rewrite (tokenizeLoop_mono _ _ E Hle).
Qed.

Lemma splittingTurn_mono (n m : nat) (input : jsstring) (v : Vars.t)
  (t : SplittingTurn) :
  splittingTurn n input v = Some t -> (n <= m)%nat ->
  splittingTurn m input v = Some t.
Proof.
  unfold splittingTurn. cbv zeta. intros H Hle.
  destruct (Vars.position _ >=? jslength input)%Z; [exact H|].
  destruct (collectCharacters regexLeadingNotSpaces input _) as [[url|] v3];
    [|exact H].
  destruct (endsWithComma url); [exact H|].
  destruct (tokenize n input _) as [r|] eqn:E; [|discriminate].
  now rewrite (tokenize_mono _ _ E Hle).
Qed.

Lemma splittingLoop_mono (n tn : nat) (input : jsstring) :
  forall m tm v c,
    splittingLoop n tn input v = Some c ->
    (n <= m)%nat -> (tn <= tm)%nat ->
    splittingLoop m tm input v = Some c.
Proof.
  induction n as [|n IH]; intros m tm v c H Hle Htle; [discriminate|].
  destruct m as [|m]; [lia|]. cbn [splittingLoop] in *.
  destruct (splittingTurn tn input v) as [t|] eqn:E; [|discriminate].
  rewrite (splittingTurn_mono _ _ E Htle).
  destruct t as [v1|c1]; [|exact H].
  apply (IH m tm v1 c H); [lia | assumption].
Qed.

(** X13: separators before an input move the candidates and change nothing
    else. For every input and every run [pre] of commas and whitespace,
    [parseSrcset] ends on [pre ++ input] the way it ends on [input]: it
    returns the same candidates with every [source.startOffset] greater by
    the length of [pre], or throws the same error, where the message of an
    invalid descriptor quotes the longer input and names the same
    descriptor. *)
Theorem X13_separators_before_move_the_candidates (pre input : jsstring) :
  Forall (fun c => classCommaOrSpace c = true) pre ->
  exists c c',
    parseSrcset input = Some c
    /\ parseSrcset (pre ++ input) = Some c'
    /\ shifted (jslength pre) input (pre ++ input) c c'.
Proof.
  intros Hpre.
  destruct (@splittingLoop_total (tokenizeBound input) input (le_n _)
              (splittingBound input) Vars.initial)
    as (c & Hc & Hrt);
    [simpl; lia | simpl; unfold splittingBound; lia |].
  assert (Hb : (splittingBound input <= splittingBound (pre ++ input))%nat)
    by (unfold splittingBound; rewrite length_app; lia).
  assert (Htb : (tokenizeBound input <= tokenizeBound (pre ++ input))%nat)
    by (unfold tokenizeBound; rewrite length_app; lia).
  pose proof (@splittingLoop_mono _ _ _ _ _ _ _ Hc Hb Htb) as Hc'.
  apply (@splittingLoop_shift pre) in Hc'; [|simpl; lia | exact Htb].
  destruct Hc' as (c' & Hrun & Hrel).
  exists c, c'. split; [exact Hc|]. split.
  - unfold parseSrcset. rewrite <- Hrun. unfold splittingBound.
    rewrite Nat.add_1_r. cbn [splittingLoop].
    now rewrite (splittingTurn_leading input _ Hpre).
  - destruct Hrel as [Hrel | (-> & _)]; [exact Hrel|].
    destruct Hrt as [(cs & E & _) | [E | (x & E)]]; discriminate.
Qed.

Lemma X13_separators_before_witness :
  Forall (fun c => classCommaOrSpace c = true) (str " ,")
  /\ exists c c',
      parseSrcset (str "a 1x, b 2w") = Some c
      /\ parseSrcset (str " ," ++ str "a 1x, b 2w") = Some c'
      /\ shifted 2 (str "a 1x, b 2w") (str " ," ++ str "a 1x, b 2w") c c'.
Proof.
  assert (H : Forall (fun c => classCommaOrSpace c = true) (str " ,"))
    by (repeat (apply Forall_cons; [reflexivity|]); apply Forall_nil).
  split; [exact H|].
  exact (X13_separators_before_move_the_candidates (str "a 1x, b 2w") H).
Defined.
